(** * LambdaSpaceAPIv2: occupancy state and event extraction

    A shallow embedding of the Go server of the LambdaSpace API
    (package main): the [updateStatus] loop that ingests occupancy
    counts, and [getScheduledEvents], which fetches the forum topic
    list and extracts calendar records from the topic titles.

    Go strings are byte sequences and are modelled by [string]; Go
    [int] and [int64] values are modelled by [Z] (the code only stores
    and compares them, so no wrap-around arithmetic is involved); a
    run-time panic is an explicit outcome. *)

From Stdlib Require Import ZArith NArith List String Ascii Bool Lia DecimalString
  Permutation Sorted DecimalPos.
Import ListNotations.

Local Open Scope string_scope.
Local Open Scope Z_scope.

(** ** Run-time panics *)

Module GoRun.

(** The panics the modelled code can raise. *)
Inductive PanicKind : Type :=
| IndexOutOfRange (index : nat) (length : nat)
| SliceBoundsOutOfRange (low : nat) (length : nat)
| NilPointerDereference.

(** The result of running a piece of Go code that has no side effect
    but may panic. *)
Inductive Run (A : Type) : Type :=
| Done (a : A)
| Panics (p : PanicKind).

Arguments Done {A} a.
Arguments Panics {A} p.

Definition bind {A B : Type} (m : Run A) (k : A -> Run B) : Run B :=
  match m with
  | Done a => k a
  | Panics p => Panics p
  end.

(** [s[i]] on a slice. *)
Definition index {A : Type} (s : list A) (i : nat) : Run A :=
  match nth_error s i with
  | Some a => Done a
  | None => Panics (IndexOutOfRange i (List.length s))
  end.

(** [s[low:]] on a slice. *)
Definition sliceFrom {A : Type} (s : list A) (low : nat) : Run (list A) :=
  if (low <=? List.length s)%nat then Done (skipn low s)
  else Panics (SliceBoundsOutOfRange low (List.length s)).

End GoRun.

Import GoRun.

Notation "x <- m ;; k" := (GoRun.bind m (fun x => k))
  (at level 61, m at next level, right associativity).

(** ** The Go library functions used by the extraction *)

Module GoLib.

Definition byteOf (c : ascii) : N := N_of_ascii c.

Definition between (lo hi : N) (c : ascii) : bool :=
  ((lo <=? byteOf c) && (byteOf c <=? hi))%N.

(** [utf8.RuneError]. *)
Definition RuneError : N := 65533%N.

(** [utf8.DecodeRuneInString]: the first rune of [s] and its width in
    bytes; an invalid or truncated encoding is [RuneError] of width 1. *)
Definition DecodeRuneInString (s : string) : N * nat :=
  match s with
  | EmptyString => (RuneError, 0%nat)
  | String c0 rest =>
    let b0 := byteOf c0 in
    if (b0 <? 128)%N then (b0, 1%nat)
    else if between 194 223 c0 then
      match rest with
      | String c1 _ =>
        if between 128 191 c1
        then (N.lor (N.shiftl (N.land b0 31) 6) (N.land (byteOf c1) 63), 2%nat)
        else (RuneError, 1%nat)
      | _ => (RuneError, 1%nat)
      end
    else if between 224 239 c0 then
      match rest with
      | String c1 (String c2 _) =>
        let lo := if (b0 =? 224)%N then 160%N else 128%N in
        let hi := if (b0 =? 237)%N then 159%N else 191%N in
        if between lo hi c1 && between 128 191 c2
        then (N.lor (N.shiftl (N.land b0 15) 12)
               (N.lor (N.shiftl (N.land (byteOf c1) 63) 6)
                      (N.land (byteOf c2) 63)), 3%nat)
        else (RuneError, 1%nat)
      | _ => (RuneError, 1%nat)
      end
    else if between 240 244 c0 then
      match rest with
      | String c1 (String c2 (String c3 _)) =>
        let lo := if (b0 =? 240)%N then 144%N else 128%N in
        let hi := if (b0 =? 244)%N then 143%N else 191%N in
        if between lo hi c1 && between 128 191 c2 && between 128 191 c3
        then (N.lor (N.shiftl (N.land b0 7) 18)
               (N.lor (N.shiftl (N.land (byteOf c1) 63) 12)
                 (N.lor (N.shiftl (N.land (byteOf c2) 63) 6)
                        (N.land (byteOf c3) 63))), 4%nat)
        else (RuneError, 1%nat)
      | _ => (RuneError, 1%nat)
      end
    else (RuneError, 1%nat)
  end.

(** [unicode.IsSpace]: the Latin-1 spaces and the code points with
    the White_Space property. *)
Definition IsSpace (r : N) : bool :=
  ((9 <=? r) && (r <=? 13) || (r =? 32) || (r =? 133) || (r =? 160)
   || (r =? 5760) || (8192 <=? r) && (r <=? 8202)
   || (r =? 8232) || (r =? 8233) || (r =? 8239) || (r =? 8287)
   || (r =? 12288))%N.

(** The scan of [strings.FieldsFunc] over the runes of the string.
    [cur] is the field being read ([None] between fields); [skip]
    counts the bytes still to be consumed of the rune decoded last,
    which belong to the current field, or to a separator when there
    is no current field. *)
Fixpoint fieldsScan (s : string) (skip : nat) (cur : option string) : list string :=
  match s with
  | EmptyString =>
    match cur with
    | Some w => [w]
    | None => []
    end
  | String c rest =>
    match skip with
    | S k => fieldsScan rest k (option_map (fun w => w ++ String c "") cur)
    | O =>
      let (r, width) := DecodeRuneInString s in
      if IsSpace r then
        match cur with
        | Some w => w :: fieldsScan rest (Nat.pred width) None
        | None => fieldsScan rest (Nat.pred width) None
        end
      else
        fieldsScan rest (Nat.pred width)
          (Some (match cur with
                 | Some w => w ++ String c ""
                 | None => String c ""
                 end))
    end
  end.

(** [strings.Fields]: the maximal runs of non-space runes. *)
Definition Fields (s : string) : list string := fieldsScan s 0 None.

(** [strings.Join]. *)
Fixpoint Join (elems : list string) (sep : string) : string :=
  match elems with
  | [] => ""
  | [e] => e
  | e :: es => e ++ sep ++ Join es sep
  end.

(** The two regular expressions of the source are sequences of
    one-character atoms behind a [^] anchor: [\d] or a literal. *)
Inductive Atom : Type :=
| Digit
| Lit (c : ascii).

Definition isDigit (c : ascii) : bool := between 48 57 c.

Definition atomMatches (a : Atom) (c : ascii) : bool :=
  match a with
  | Digit => isDigit c
  | Lit l => Ascii.eqb l c
  end.

(** The method [MatchString] of such an expression: since only the
    start is anchored, the atoms have to match a prefix of [s]. *)
Fixpoint MatchString (re : list Atom) (s : string) : bool :=
  match re with
  | [] => true
  | a :: re' =>
    match s with
    | EmptyString => false
    | String c s' => atomMatches a c && MatchString re' s'
    end
  end.

(** [strconv.Itoa], which is how [%v] prints an [int]. *)
Definition Itoa (i : Z) : string := NilZero.string_of_int (Z.to_int i).

End GoLib.

Import GoLib.

(** ** Event extraction *)

Record HackerspaceEvents : Type := {
  Title : string;
  Date : string;
  Begin : string;
  End : string;
  URL : string
}.

(** An element of [DiscourseApi.TopicList.Topics]. *)
Record Topic : Type := {
  ID : Z;
  TopicTitle : string;
  Slug : string
}.

(** [^\d\d\/\d\d\/\d\d\d\d] *)
Definition yearRegexp : list Atom :=
  [Digit; Digit; Lit "/"; Digit; Digit; Lit "/"; Digit; Digit; Digit; Digit].

(** [^\d\d:\d\d] *)
Definition hourRegexp : list Atom :=
  [Digit; Digit; Lit ":"; Digit; Digit].

(** [fmt.Sprintf("https://community.lambdaspace.gr/t/%s/%v", slug, id)] *)
Definition eventURL (slug : string) (id : Z) : string :=
  "https://community.lambdaspace.gr/t/" ++ slug ++ "/" ++ Itoa id.

(** The condition [fields[2] == "-" && hourRegexp.MatchString(fields[3])];
    [&&] does not evaluate its right operand when the left one is false. *)
Definition isRange (fields : list string) : Run bool :=
  f2 <- index fields 2 ;;
  if String.eqb f2 "-"
  then f3 <- index fields 3 ;; Done (MatchString hourRegexp f3)
  else Done false.

(** The body of the loop over the topics: what one topic does to [ret].
    Both regular expressions compile, so the two [check(err)] calls of
    the body log nothing. *)
Definition extractTopic (element : Topic) (ret : list HackerspaceEvents)
  : Run (list HackerspaceEvents) :=
  let id := ID element in
  let slug := Slug element in
  let fields := Fields (TopicTitle element) in
  f0 <- index fields 0 ;;
  if MatchString yearRegexp f0 then
    let date := f0 in
    let url := eventURL slug id in
    f1 <- index fields 1 ;;
    if MatchString hourRegexp f1 then
      let begin := f1 in
      range <- isRange fields ;;
      if range then
        f3 <- index fields 3 ;;
        rest <- sliceFrom fields 4 ;;
        Done (ret ++ [{| Title := Join rest " "; Date := date;
                         Begin := begin; End := f3; URL := url |}])%list
      else
        rest <- sliceFrom fields 2 ;;
        Done (ret ++ [{| Title := Join rest " "; Date := date;
                         Begin := begin; End := ""; URL := url |}])%list
    else Done ret
  else Done ret.

(** [for _, element := range dat.TopicList.Topics { ... }] *)
Fixpoint extractLoop (topics : list Topic) (ret : list HackerspaceEvents)
  : Run (list HackerspaceEvents) :=
  match topics with
  | [] => Done ret
  | element :: topics' =>
    ret' <- extractTopic element ret ;;
    extractLoop topics' ret'
  end.

(** The extraction as a whole, from [ret := []HackerspaceEvents{}]. *)
Definition extractEvents (topics : list Topic) : Run (list HackerspaceEvents) :=
  extractLoop topics [].

(** ** Fetching and publishing the events *)

(** A Go [error] value, by its message. *)
Definition error : Type := string.

(** The state of the process that [getScheduledEvents] works on: the
    global [spaceEvents.Events] and what has been written to the log. *)
Record World : Type := {
  Events : list HackerspaceEvents;
  Log : list error
}.

(** How a function call ends: it returns a value, or it panics. Nothing
    in the program recovers the panic of a goroutine, so a panic ends
    the process. *)
Inductive Outcome (A : Type) : Type :=
| Returns (a : A) (w : World)
| Crashes (p : PanicKind) (w : World).

Arguments Returns {A} a w.
Arguments Crashes {A} p w.

(** [log.Println(err)] and [log.Print(err)]. *)
Definition logPrint (err : error) (w : World) : World :=
  {| Events := Events w; Log := (Log w ++ [err])%list |}.

(** [check(err)] *)
Definition check (err : option error) (w : World) : World :=
  match err with
  | Some e => logPrint e w
  | None => w
  end.

(** A non-nil [*http.Response], by what [ioutil.ReadAll] reads from its
    body. *)
Record Response : Type := {
  readBody : string;
  readErr : option error
}.

(** What the calls that leave the program answer during one run of
    [getScheduledEvents]: the pair returned by [httpClient.Get], and
    the topics and the error that [json.Unmarshal] leaves for the body
    that was read. *)
Record Answers : Type := {
  httpGet : option Response * option error;
  jsonUnmarshal : list Topic * option error
}.

(** [fetchHTTPResource]: the deferred call needs [response.Body], which
    dereferences [response]. *)
Definition fetchHTTPResource (get : option Response * option error) (w : World)
  : Outcome (string * option error) :=
  let '(response, err) := get in
  let w := check err w in
  match response with
  | None => Crashes NilPointerDereference w
  | Some r =>
    let '(responseBody, err) := (readBody r, readErr r) in
    let w := check err w in
    Returns (responseBody, err) w
  end.

(** [spaceEvents.Events = ret] *)
Definition setEvents (ret : list HackerspaceEvents) (w : World) : World :=
  {| Events := ret; Log := Log w |}.

(** [getScheduledEvents]; the Go function has no result. *)
Definition getScheduledEvents (a : Answers) (w : World) : Outcome unit :=
  match fetchHTTPResource (httpGet a) w with
  | Crashes p w => Crashes p w
  | Returns (_, Some err) w => Returns tt (logPrint err w)
  | Returns (_, None) w =>
    let '(topics, err) := jsonUnmarshal a in
    let w := check err w in
    match extractEvents topics with
    | Panics p => Crashes p w
    | Done ret =>
      if (0 <? List.length ret)%nat
      then Returns tt (setEvents ret w)
      else Returns tt w
    end
  end.

(** ** The occupancy state *)

(** The three variables behind the pointers [peoplePresent],
    [spaceStatus] and [lastChange]. *)
Record Status : Type := {
  Open : bool;
  PeopleNowPresent : Z;
  Lastchange : Z
}.

(** The body of the loop of [updateStatus] for one value received from
    [statusChan]; [now] is what [time.Now().Unix()] answers. *)
Definition ingest (s : Status) (numOfPeople now : Z) : Status :=
  let previousPeoplePresent := PeopleNowPresent s in
  let s := {| Open := Open s; PeopleNowPresent := numOfPeople;
              Lastchange := Lastchange s |} in
  let s := {| Open := PeopleNowPresent s >? 0;
              PeopleNowPresent := PeopleNowPresent s;
              Lastchange := Lastchange s |} in
  if negb (previousPeoplePresent =? PeopleNowPresent s)
  then {| Open := Open s; PeopleNowPresent := PeopleNowPresent s;
          Lastchange := now |}
  else s.

(** [updateStatus] over the values received, each with the clock of
    its iteration. *)
Definition updateStatus (received : list (Z * Z)) (s : Status) : Status :=
  fold_left (fun s r => ingest s (fst r) (snd r)) received s.

(** The state after each of the iterations, in order. *)
Fixpoint updateStatusTrace (received : list (Z * Z)) (s : Status) : list Status :=
  match received with
  | [] => []
  | r :: received' =>
    let s' := ingest s (fst r) (snd r) in
    s' :: updateStatusTrace received' s'
  end.

(** ** The goroutines that share the occupancy state *)

Module Interleaving.

(** [spaceDescriptor]'s embedded [sync.RWMutex]. *)
Record RWMutex : Type := {
  writerHeld : bool;
  readerCount : nat
}.

(** Where the goroutine of [updateStatus] stands: before the
    statement named by the constructor, with its local variables. *)
Inductive UpdatePC : Type :=
| UReceive
| ULock (numOfPeople : Z)
| ULoadPrevious (numOfPeople : Z)
| UStoreCount (numOfPeople previousPeoplePresent : Z)
| UStoreOpen (previousPeoplePresent : Z)
| UCompare (previousPeoplePresent : Z)
| UStoreChange
| UUnlock.

(** Where a request to the status route stands: it takes the read
    lock, loads [*spaceStatus], [*peoplePresent] and [*lastChange] in
    this order, answers, and the deferred [RUnlock] runs. *)
Inductive HandlerPC : Type :=
| HRLock
| HLoadOpen
| HLoadCount (open : bool)
| HLoadChange (open : bool) (count : Z)
| HRUnlock (answer : Status)
| HDone (answer : Status).

(** Where a request to the hackers route stands: it takes the read
    lock of [spaceEvents], which is not the mutex that guards the
    occupancy state, loads [*peoplePresent] and answers. *)
Inductive HackersPC : Type :=
| KRLock
| KLoadCount
| KRUnlock (answer : Z)
| KDone (answer : Z).

(** The shared variables and the goroutines. Loads and stores of one
    variable are the atomic steps. *)
Record Config : Type := {
  memory : Status;
  mutex : RWMutex;
  (** the values that senders are waiting to hand to [statusChan] *)
  senders : list Z;
  update : UpdatePC;
  handlers : list HandlerPC;
  hackers : list HackersPC
}.

Inductive Thread : Type :=
| UpdateStatus
| StatusHandler (i : nat)
| HackersHandler (i : nat).

(** One decision of the scheduler: the goroutine that takes a step,
    the sender that a receive takes its value from, and what the
    clock shows. *)
Record Choice : Type := {
  thread : Thread;
  sender : nat;
  clock : Z
}.

Fixpoint removeAt {A : Type} (i : nat) (l : list A) : list A :=
  match l, i with
  | [], _ => []
  | _ :: l', O => l'
  | x :: l', S i' => x :: removeAt i' l'
  end.

Fixpoint setAt {A : Type} (i : nat) (x : A) (l : list A) : list A :=
  match l, i with
  | [], _ => []
  | _ :: l', O => x :: l'
  | y :: l', S i' => y :: setAt i' x l'
  end.

Definition withUpdate (c : Config) (m : Status) (mu : RWMutex) (pc : UpdatePC) : Config :=
  {| memory := m; mutex := mu; senders := senders c; update := pc;
     handlers := handlers c; hackers := hackers c |}.

Definition withHandler (c : Config) (mu : RWMutex) (i : nat) (pc : HandlerPC) : Config :=
  {| memory := memory c; mutex := mu; senders := senders c; update := update c;
     handlers := setAt i pc (handlers c); hackers := hackers c |}.

Definition withHackers (c : Config) (i : nat) (pc : HackersPC) : Config :=
  {| memory := memory c; mutex := mutex c; senders := senders c; update := update c;
     handlers := handlers c; hackers := setAt i pc (hackers c) |}.

(** A step of [updateStatus]. The second component is the iteration
    that the step completes, if any: the value ingested and the clock
    of the iteration. *)
Definition stepUpdate (ch : Choice) (c : Config) : option (Config * list (Z * Z)) :=
  let m := memory c in
  let mu := mutex c in
  match update c with
  | UReceive =>
    match nth_error (senders c) (sender ch) with
    | Some numOfPeople =>
      Some ({| memory := m; mutex := mu;
               senders := removeAt (sender ch) (senders c);
             update := ULock numOfPeople; handlers := handlers c;
             hackers := hackers c |}, [])
    | None => None
    end
  | ULock n =>
    if writerHeld mu || (0 <? readerCount mu)%nat then None
    else Some (withUpdate c m {| writerHeld := true; readerCount := readerCount mu |}
                 (ULoadPrevious n), [])
  | ULoadPrevious n =>
    Some (withUpdate c m mu (UStoreCount n (PeopleNowPresent m)), [])
  | UStoreCount n previous =>
    Some (withUpdate c {| Open := Open m; PeopleNowPresent := n;
                          Lastchange := Lastchange m |} mu
            (UStoreOpen previous), [])
  | UStoreOpen previous =>
    Some (withUpdate c {| Open := PeopleNowPresent m >? 0;
                          PeopleNowPresent := PeopleNowPresent m;
                          Lastchange := Lastchange m |} mu
            (UCompare previous), [])
  | UCompare previous =>
    if negb (previous =? PeopleNowPresent m)
    then Some (withUpdate c m mu UStoreChange, [])
    else Some (withUpdate c m mu UUnlock, [(PeopleNowPresent m, clock ch)])
  | UStoreChange =>
    Some (withUpdate c {| Open := Open m; PeopleNowPresent := PeopleNowPresent m;
                          Lastchange := clock ch |} mu UUnlock,
          [(PeopleNowPresent m, clock ch)])
  | UUnlock =>
    Some (withUpdate c m {| writerHeld := false; readerCount := readerCount mu |}
            UReceive, [])
  end.

(** A step of the [i]-th request to the status route. [RLock] is
    granted whenever no writer holds the mutex; [sync.RWMutex] refuses
    it in more cases, so its runs are among the runs described here. *)
Definition stepHandler (i : nat) (c : Config) : option (Config * list (Z * Z)) :=
  let m := memory c in
  let mu := mutex c in
  match nth_error (handlers c) i with
  | None => None
  | Some HRLock =>
    if writerHeld mu then None
    else Some (withHandler c {| writerHeld := writerHeld mu;
                                readerCount := S (readerCount mu) |} i HLoadOpen, [])
  | Some HLoadOpen => Some (withHandler c mu i (HLoadCount (Open m)), [])
  | Some (HLoadCount o) =>
    Some (withHandler c mu i (HLoadChange o (PeopleNowPresent m)), [])
  | Some (HLoadChange o n) =>
    Some (withHandler c mu i
            (HRUnlock {| Open := o; PeopleNowPresent := n;
                         Lastchange := Lastchange m |}), [])
  | Some (HRUnlock answer) =>
    Some (withHandler c {| writerHeld := writerHeld mu;
                           readerCount := Nat.pred (readerCount mu) |} i
            (HDone answer), [])
  | Some (HDone _) => None
  end.

(** A step of the [i]-th request to the hackers route. The mutex of
    [spaceEvents] is not part of the configuration: its read lock is
    taken to be free whenever the request is scheduled. *)
Definition stepHackers (i : nat) (c : Config) : option (Config * list (Z * Z)) :=
  match nth_error (hackers c) i with
  | None => None
  | Some KRLock => Some (withHackers c i KLoadCount, [])
  | Some KLoadCount =>
    Some (withHackers c i (KRUnlock (PeopleNowPresent (memory c))), [])
  | Some (KRUnlock answer) => Some (withHackers c i (KDone answer), [])
  | Some (KDone _) => None
  end.

(** A step of the chosen goroutine; [None] when it is blocked or has
    ended. *)
Definition step (ch : Choice) (c : Config) : option (Config * list (Z * Z)) :=
  match thread ch with
  | UpdateStatus => stepUpdate ch c
  | StatusHandler i => stepHandler i c
  | HackersHandler i => stepHackers i c
  end.

(** The run that a schedule describes, with the iterations completed
    on the way, in the order of their completion. *)
Fixpoint run (schedule : list Choice) (c : Config) : option (Config * list (Z * Z)) :=
  match schedule with
  | [] => Some (c, [])
  | ch :: schedule' =>
    match step ch c with
    | None => None
    | Some (c', done) =>
      match run schedule' c' with
      | None => None
      | Some (c'', done') => Some (c'', (done ++ done')%list)
      end
    end
  end.

(** What a request has answered, once it has. *)
Definition answered (pc : HandlerPC) : option Status :=
  match pc with
  | HRUnlock answer | HDone answer => Some answer
  | _ => None
  end.

Definition answeredCount (pc : HackersPC) : option Z :=
  match pc with
  | KRUnlock answer | KDone answer => Some answer
  | _ => None
  end.

(** The start: nobody holds the mutex, [updateStatus] waits for a
    value, and no request has started. *)
Definition initial (m : Status) (values : list Z) (requests hackerRequests : nat)
  : Config :=
  {| memory := m; mutex := {| writerHeld := false; readerCount := 0 |};
     senders := values; update := UReceive;
     handlers := repeat HRLock requests;
     hackers := repeat KRLock hackerRequests |}.

(** *** The invariant of the runs *)

(** [updateStatus] is between its [Lock] and its [Unlock]. *)
Definition inCritical (pc : UpdatePC) : bool :=
  match pc with
  | UReceive | ULock _ => false
  | _ => true
  end.

(** The request is between its [RLock] and its [RUnlock]. *)
Definition holdsRead (pc : HandlerPC) : bool :=
  match pc with
  | HLoadOpen | HLoadCount _ | HLoadChange _ _ | HRUnlock _ => true
  | HRLock | HDone _ => false
  end.

Definition readersIn (hs : list HandlerPC) : nat :=
  List.length (filter holdsRead hs).

(** The value that [updateStatus] has received and whose iteration is
    not complete yet. *)
Definition inFlight (c : Config) : list Z :=
  match update c with
  | UReceive | UUnlock => []
  | ULock n | ULoadPrevious n | UStoreCount n _ => [n]
  | UStoreOpen _ | UCompare _ | UStoreChange => [PeopleNowPresent (memory c)]
  end.

(** How the memory [m] stands to [base], the state after the completed
    iterations, at each point of [updateStatus]. *)
Definition updateAt (base m : Status) (pc : UpdatePC) : Prop :=
  match pc with
  | UReceive | ULock _ | ULoadPrevious _ | UUnlock => m = base
  | UStoreCount _ previous => m = base /\ previous = PeopleNowPresent base
  | UStoreOpen previous =>
    Open m = Open base /\ Lastchange m = Lastchange base
    /\ previous = PeopleNowPresent base
  | UCompare previous =>
    Open m = (PeopleNowPresent m >? 0) /\ Lastchange m = Lastchange base
    /\ previous = PeopleNowPresent base
  | UStoreChange =>
    Open m = (PeopleNowPresent m >? 0) /\ Lastchange m = Lastchange base
    /\ PeopleNowPresent base <> PeopleNowPresent m
  end.

(** [answer] is the state after some number of the completed
    iterations, from the start [m0]. *)
Definition afterSome (m0 : Status) (done : list (Z * Z)) (answer : Status) : Prop :=
  exists k, (k <= List.length done)%nat /\ answer = updateStatus (firstn k done) m0.

Definition handlerAt (m0 : Status) (done : list (Z * Z)) (m : Status) (pc : HandlerPC)
  : Prop :=
  match pc with
  | HRLock | HLoadOpen => True
  | HLoadCount o => o = Open m
  | HLoadChange o n => o = Open m /\ n = PeopleNowPresent m
  | HRUnlock answer | HDone answer => afterSome m0 done answer
  end.

(** [n] is the count of the start or one of the values sent. *)
Definition knownCount (m0 : Status) (values : list Z) (n : Z) : Prop :=
  n = PeopleNowPresent m0 \/ In n values.

Definition hackersAt (m0 : Status) (values : list Z) (pc : HackersPC) : Prop :=
  match pc with
  | KRLock | KLoadCount => True
  | KRUnlock answer | KDone answer => knownCount m0 values answer
  end.

Record Inv (m0 : Status) (values : list Z) (done : list (Z * Z)) (c : Config) : Prop := {
  inv_writer : writerHeld (mutex c) = inCritical (update c);
  inv_readers : readerCount (mutex c) = readersIn (handlers c);
  inv_exclusive : writerHeld (mutex c) = true -> readerCount (mutex c) = 0%nat;
  inv_update : updateAt (updateStatus done m0) (memory c) (update c);
  inv_handlers : Forall (handlerAt m0 done (memory c)) (handlers c);
  inv_values : Permutation (map fst done ++ inFlight c ++ senders c) values;
  inv_count : knownCount m0 values (PeopleNowPresent (memory c));
  inv_hackers : Forall (hackersAt m0 values) (hackers c)
}.

(** *** A run *)

Definition byUpdate (s : nat) (t : Z) : Choice :=
  {| thread := UpdateStatus; sender := s; clock := t |}.

Definition byHandler (i : nat) : Choice :=
  {| thread := StatusHandler i; sender := 0; clock := 0 |}.

Definition byHackers (i : nat) : Choice :=
  {| thread := HackersHandler i; sender := 0; clock := 0 |}.

Definition closed : Status :=
  {| Open := false; PeopleNowPresent := 0; Lastchange := 7 |}.

(** The first request reads while 3 waits to be ingested, the second
    one after 3 has been ingested at time 100; a request to the hackers
    route loads the count in the middle of the ingestion of 0, which
    completes at time 200. *)
Definition exampleSchedule : list Choice :=
  [byHandler 0; byUpdate 0 90; byHandler 0; byHandler 0; byHandler 0; byHandler 0;
   byUpdate 0 91; byUpdate 0 92; byUpdate 0 93; byUpdate 0 94; byUpdate 0 95;
   byUpdate 0 100; byUpdate 0 101;
   byHandler 1; byHandler 1; byHandler 1; byHandler 1; byHandler 1;
   byUpdate 0 150; byUpdate 0 151; byUpdate 0 152; byHackers 0; byUpdate 0 153;
   byHackers 0; byUpdate 0 154; byUpdate 0 155; byHackers 0; byUpdate 0 200;
   byUpdate 0 201].

End Interleaving.

(** ** Notions used in the statements *)

(** The strict reading of a pattern: the atoms have to match the whole
    of [s], with nothing after them. For [yearRegexp] this is two
    digits, a slash, two digits, a slash and four digits; for
    [hourRegexp] two digits, a colon and two digits. *)
Fixpoint matchExactly (re : list Atom) (s : string) : bool :=
  match re, s with
  | [], EmptyString => true
  | a :: re', String c s' => atomMatches a c && matchExactly re' s'
  | _, _ => false
  end.

(** [s] begins with a text that matches [re] exactly. *)
Definition startsWith (re : list Atom) (s : string) : Prop :=
  exists p rest, s = p ++ rest /\ matchExactly re p = true.

(** The value that a call hands to its caller, when it returns. *)
Definition returned {A : Type} (o : Outcome A) : option A :=
  match o with
  | Returns a _ => Some a
  | Crashes _ _ => None
  end.

(** The world a call leaves behind. *)
Definition worldOf {A : Type} (o : Outcome A) : World :=
  match o with
  | Returns _ w => w
  | Crashes _ w => w
  end.

(** The invariant of the occupancy state. *)
Definition openMatchesCount (s : Status) : Prop :=
  Open s = (PeopleNowPresent s >? 0).

Definition topic (id : Z) (title slug : string) : Topic :=
  {| ID := id; TopicTitle := title; Slug := slug |}.

(** The JSON text of a topic list, for titles and slugs that need no
    escaping. *)
Definition quoted (s : string) : string :=
  String (ascii_of_nat 34) s ++ String (ascii_of_nat 34) "".

Definition encodeTopic (t : Topic) : string :=
  "{" ++ quoted "id" ++ ":" ++ Itoa (ID t) ++ ","
      ++ quoted "title" ++ ":" ++ quoted (TopicTitle t) ++ ","
      ++ quoted "slug" ++ ":" ++ quoted (Slug t) ++ "}".

Definition encodeTopics (topics : list Topic) : string :=
  "{" ++ quoted "topic_list" ++ ":{" ++ quoted "topics" ++ ":["
      ++ Join (map encodeTopic topics) "," ++ "]}}".

(** A successful fetch: the body is the JSON text of [topics], and it
    decodes to [topics] without error. *)
Definition fetched (topics : list Topic) : Answers :=
  {| httpGet := (Some {| readBody := encodeTopics topics; readErr := None |}, None);
     jsonUnmarshal := (topics, None) |}.

(** A fetch that fails in the network: [Get] returns a nil response
    and the error. *)
Definition networkError (err : error) : Answers :=
  {| httpGet := (None, Some err); jsonUnmarshal := ([], None) |}.

Definition emptyWorld : World := {| Events := []; Log := [] |}.

Definition lockpicking : Topic :=
  topic 42 "12/05/2024 18:00 - 20:00 Lockpicking Workshop" "lockpicking-night".

Definition socialNight : Topic :=
  topic 43 "Open Social Night" "open-social-night".

Definition meetup : Topic :=
  topic 44 "12/05/2024 18:00 General Meetup" "general-meetup".

(** A title whose first two tokens carry one character more than a
    date and a time. *)
Definition trailing : Topic :=
  topic 45 "12/05/20245 18:005 Lockpicking" "lockpicking".

Import Interleaving.

(** * Further definitions *)

(** ** Notions used in the further statements *)

(** The topic adds a record to [ret]. *)
Definition yieldsRecord (element : Topic) : bool :=
  match extractTopic element [] with
  | Done (_ :: _) => true
  | _ => false
  end.

(** The tokens of a title are enough for the accesses that the loop
    body makes: a first token; a second one when the first matches the
    date pattern; a third one when the second matches the time pattern
    too; a fourth one when the third is a dash. *)
Definition enoughTokens (fields : list string) : bool :=
  match fields with
  | [] => false
  | [f0] => negb (MatchString yearRegexp f0)
  | [f0; f1] => negb (MatchString yearRegexp f0 && MatchString hourRegexp f1)
  | [f0; f1; f2] =>
    negb (MatchString yearRegexp f0 && MatchString hourRegexp f1 && String.eqb f2 "-")
  | _ => true
  end.

(** What every published record looks like. *)
Definition wellFormedEvent (e : HackerspaceEvents) : Prop :=
  startsWith yearRegexp (Date e)
  /\ startsWith hourRegexp (Begin e)
  /\ (End e = "" \/ startsWith hourRegexp (End e))
  /\ (exists slug id, URL e = eventURL slug id).

Definition titleTokens (element : Topic) : list string :=
  Fields (TopicTitle element).

Definition lockpickingRecord : HackerspaceEvents :=
  {| Title := "Lockpicking Workshop"; Date := "12/05/2024"; Begin := "18:00";
     End := "20:00";
     URL := "https://community.lambdaspace.gr/t/lockpicking-night/42" |}.

Definition lockpickingPublished : World :=
  {| Events := [lockpickingRecord]; Log := [] |}.

(** *** Progress of the goroutines *)

(** Everything is done: no value is left to ingest and every request
    has been answered. *)
Definition finished (c : Config) : Prop :=
  update c = UReceive /\ senders c = []
  /\ Forall (fun pc => exists answer, pc = HDone answer) (handlers c)
  /\ Forall (fun pc => exists answer, pc = KDone answer) (hackers c).

(** The number of steps that a goroutine has still to take, at most. *)
Definition updateSteps (pc : UpdatePC) : nat :=
  match pc with
  | UReceive => 0
  | ULock _ => 7
  | ULoadPrevious _ => 6
  | UStoreCount _ _ => 5
  | UStoreOpen _ => 4
  | UCompare _ => 3
  | UStoreChange => 2
  | UUnlock => 1
  end.

Definition handlerSteps (pc : HandlerPC) : nat :=
  match pc with
  | HRLock => 5
  | HLoadOpen => 4
  | HLoadCount _ => 3
  | HLoadChange _ _ => 2
  | HRUnlock _ => 1
  | HDone _ => 0
  end.

Definition hackersSteps (pc : HackersPC) : nat :=
  match pc with
  | KRLock => 3
  | KLoadCount => 2
  | KRUnlock _ => 1
  | KDone _ => 0
  end.

Definition total {A : Type} (f : A -> nat) (l : list A) : nat :=
  fold_right (fun x n => (f x + n)%nat) 0%nat l.

Definition stepsLeft (c : Config) : nat :=
  (8 * List.length (senders c) + updateSteps (update c)
   + total handlerSteps (handlers c) + total hackersSteps (hackers c))%nat.

(** Some goroutine can take a step. *)
Definition canStep (c : Config) : Prop :=
  exists ch c' e, step ch c = Some (c', e).

(** ** Reading decimal numbers *)

Module Strconv.

(** The two errors a [*NumError] can carry. *)
Inductive NumError : Type :=
| ErrSyntax
| ErrRange.

Definition maxUint64 : Z := 18446744073709551615.

(** The loop of [strconv.ParseUint] for base 10 and 64 bits, with the
    value [n] read so far: a byte that is no digit is a syntax error,
    and the first digit that takes the value beyond 64 bits ends the
    loop with the largest value and a range error, whatever follows. *)
Fixpoint parseDigits (s : string) (n : Z) : Z * option NumError :=
  match s with
  | EmptyString => (n, None)
  | String c s' =>
    if isDigit c then
      if n >=? maxUint64 / 10 + 1 then (maxUint64, Some ErrRange)
      else
        let n1 := n * 10 + (Z.of_N (byteOf c) - 48) in
        if n1 >? maxUint64 then (maxUint64, Some ErrRange)
        else parseDigits s' n1
    else (0, Some ErrSyntax)
  end.

(** [strconv.ParseUint(s, 10, 64)] *)
Definition ParseUint (s : string) : Z * option NumError :=
  match s with
  | EmptyString => (0, Some ErrSyntax)
  | _ => parseDigits s 0
  end.

(** [strconv.ParseInt(s, 10, 0)], with an [int] of 64 bits. *)
Definition ParseInt (s : string) : Z * option NumError :=
  match s with
  | EmptyString => (0, Some ErrSyntax)
  | String c s' =>
    let '(neg, digits) :=
      if Ascii.eqb c "+" then (false, s')
      else if Ascii.eqb c "-" then (true, s')
      else (false, s) in
    match ParseUint digits with
    | (_, Some ErrSyntax) => (0, Some ErrSyntax)
    | (un, _) =>
      let cutoff := 2 ^ 63 in
      if negb neg && (un >=? cutoff) then (cutoff - 1, Some ErrRange)
      else if neg && (un >? cutoff) then (- cutoff, Some ErrRange)
      else (if neg then - un else un, None)
    end
  end.

(** [strconv.Atoi], which is [ParseInt(s, 10, 0)] converted to [int]. *)
Definition Atoi (s : string) : Z * option NumError := ParseInt s.

End Strconv.

(** ** The space descriptor *)

Module Descriptor.

(** A [float64], by its 64 bits: the code stores it and serves it, and
    never computes with it. *)
Definition float64 : Type := Z.

Record PeopleNowPresent : Type := {
  Value : Z
}.

Record location : Type := {
  Address : string;
  Lon : float64;
  Lat : float64
}.

Record state : Type := {
  Open : bool;
  Lastchange : Z
}.

Record contact : Type := {
  Email : string;
  Irc : string;
  Ml : string;
  Twitter : string;
  Facebook : string;
  Foursquare : string
}.

(** The field [PeopleNowPresent] of [Sensors], a slice of
    [PeopleNowPresent]. *)
Record sensors : Type := {
  PeopleNowPresentList : list PeopleNowPresent
}.

Record cache : Type := {
  Schedule : string
}.

Record SpaceDescriptor : Type := {
  API : string;
  Space : string;
  Logo : string;
  URL : string;
  Location : location;
  State : state;
  Contact : contact;
  Sensors : sensors;
  IssueReportChannels : list string;
  Projects : list string;
  Cache : cache
}.

(** [d] with [State] and [Sensors] replaced. *)
Definition withStateSensors (d : SpaceDescriptor) (st : state) (se : sensors)
  : SpaceDescriptor :=
  {| API := API d; Space := Space d; Logo := Logo d; URL := URL d;
     Location := Location d; State := st; Contact := Contact d; Sensors := se;
     IssueReportChannels := IssueReportChannels d; Projects := Projects d;
     Cache := Cache d |}.

(** What the calls that leave the program answer to [getJSONFile]:
    the pair returned by [ioutil.ReadFile], and the descriptor and the
    error that [json.Unmarshal] leaves for what was read. *)
Record FileAnswers : Type := {
  readFileAnswer : string * option error;
  unmarshalAnswer : SpaceDescriptor * option error
}.

End Descriptor.

(** ** Start-up and the routes *)

(** [readFile] *)
Definition readFile (read : string * option error) (w : World) : string * World :=
  let '(file, err) := read in
  (file, check err w).

(** [getJSONFile]: whatever the reading gave is decoded, and an error
    of the decoding is logged like one of the reading. *)
Definition getJSONFile (f : Descriptor.FileAnswers) (w : World)
  : Descriptor.SpaceDescriptor * World :=
  let '(tmp, w) := readFile (Descriptor.readFileAnswer f) w in
  let '(jsonFile, err) := Descriptor.unmarshalAnswer f in
  let w := check err w in
  (jsonFile, w).

(** The variables behind the three pointers that [init] sets:
    [*peoplePresent] is the value of the first sensor entry,
    [*spaceStatus] and [*lastChange] are the two fields of [State].
    [init] makes sure that the first sensor entry exists; a store
    through [peoplePresent] leaves the other entries alone. *)
Definition loadPeople (d : Descriptor.SpaceDescriptor) : Z :=
  match Descriptor.PeopleNowPresentList (Descriptor.Sensors d) with
  | p :: _ => Descriptor.Value p
  | [] => 0
  end.

Definition storePeople (d : Descriptor.SpaceDescriptor) (n : Z)
  : Descriptor.SpaceDescriptor :=
  Descriptor.withStateSensors d (Descriptor.State d)
    {| Descriptor.PeopleNowPresentList :=
         match Descriptor.PeopleNowPresentList (Descriptor.Sensors d) with
         | _ :: rest => {| Descriptor.Value := n |} :: rest
         | [] => []
         end |}.

Definition loadOpen (d : Descriptor.SpaceDescriptor) : bool :=
  Descriptor.Open (Descriptor.State d).

Definition storeOpen (d : Descriptor.SpaceDescriptor) (b : bool)
  : Descriptor.SpaceDescriptor :=
  Descriptor.withStateSensors d
    {| Descriptor.Open := b;
       Descriptor.Lastchange := Descriptor.Lastchange (Descriptor.State d) |}
    (Descriptor.Sensors d).

Definition loadChange (d : Descriptor.SpaceDescriptor) : Z :=
  Descriptor.Lastchange (Descriptor.State d).

Definition storeChange (d : Descriptor.SpaceDescriptor) (t : Z)
  : Descriptor.SpaceDescriptor :=
  Descriptor.withStateSensors d
    {| Descriptor.Open := Descriptor.Open (Descriptor.State d);
       Descriptor.Lastchange := t |}
    (Descriptor.Sensors d).

(** [init], up to the start of the goroutines: the descriptor is
    loaded, and taking the address of the first sensor entry panics
    when there is none. *)
Definition init (f : Descriptor.FileAnswers) (w : World)
  : Outcome Descriptor.SpaceDescriptor :=
  let '(spaceDescriptor, w) := getJSONFile f w in
  match Descriptor.PeopleNowPresentList (Descriptor.Sensors spaceDescriptor) with
  | [] => Crashes (IndexOutOfRange 0 0) w
  | _ :: _ => Returns spaceDescriptor w
  end.

(** The body of the loop of [updateStatus], on the descriptor that the
    pointers point into. *)
Definition updateDescriptor (d : Descriptor.SpaceDescriptor) (numOfPeople now : Z)
  : Descriptor.SpaceDescriptor :=
  let previousPeoplePresent := loadPeople d in
  let d := storePeople d numOfPeople in
  let d := storeOpen d (loadPeople d >? 0) in
  if negb (previousPeoplePresent =? loadPeople d)
  then storeChange d now
  else d.

(** What the routes answer with, all with status 200. *)
Definition spaceAPIRouteHandler (d : Descriptor.SpaceDescriptor)
  : Descriptor.SpaceDescriptor := d.

Definition statusRoute (d : Descriptor.SpaceDescriptor) : Status :=
  {| Open := loadOpen d; PeopleNowPresent := loadPeople d;
     Lastchange := loadChange d |}.

Definition eventsRoute (w : World) : list HackerspaceEvents := Events w.

Definition hackersRoute (d : Descriptor.SpaceDescriptor) : string :=
  Itoa (loadPeople d).

(** ** The first version of the server *)

Module Legacy.

(** The descriptor that the closures of [main] share, and what has been
    printed. *)
Record Server : Type := {
  spaceDescriptor : Descriptor.SpaceDescriptor;
  printed : list error
}.

(** How a call ends. The HTTP server recovers the panic of a route, so
    the process goes on with the state that the panic left. *)
Inductive Outcome (A : Type) : Type :=
| Returns (a : A) (s : Server)
| Panics (p : PanicKind) (s : Server).

Arguments Returns {A} a s.
Arguments Panics {A} p s.

(** [check(err)], which prints. *)
Definition check (err : option error) (s : Server) : Server :=
  match err with
  | Some e => {| spaceDescriptor := spaceDescriptor s;
                 printed := (printed s ++ [e])%list |}
  | None => s
  end.

(** [peopleInSpace]. [do] is the pair returned by
    [http.DefaultClient.Do], a non-nil response being given by the
    bytes that [ioutil.ReadAll] reads from its body. [http.NewRequest]
    does not fail on the constant method and URL. The errors of
    [ReadAll] and of [Atoi] are dropped. *)
Definition peopleInSpace (do : option string * option error) (s : Server) : Outcome Z :=
  let '(resp, err) := do in
  let s := check err s in
  match resp with
  | None => Panics NilPointerDereference s
  | Some b =>
    let '(data, _) := Strconv.Atoi b in
    Returns data s
  end.

End Legacy.

(** *** Notions for the descriptor and the numbers *)

Fixpoint allDigits (s : string) : bool :=
  match s with
  | EmptyString => true
  | String c s' => isDigit c && allDigits s'
  end.

(** Everything of a descriptor that no pointer of [init] reaches: all
    fields but [State], and the sensor entries after the first. *)
Definition sameFrame (d d' : Descriptor.SpaceDescriptor) : Prop :=
  Descriptor.API d' = Descriptor.API d
  /\ Descriptor.Space d' = Descriptor.Space d
  /\ Descriptor.Logo d' = Descriptor.Logo d
  /\ Descriptor.URL d' = Descriptor.URL d
  /\ Descriptor.Location d' = Descriptor.Location d
  /\ Descriptor.Contact d' = Descriptor.Contact d
  /\ tl (Descriptor.PeopleNowPresentList (Descriptor.Sensors d'))
     = tl (Descriptor.PeopleNowPresentList (Descriptor.Sensors d))
  /\ List.length (Descriptor.PeopleNowPresentList (Descriptor.Sensors d'))
     = List.length (Descriptor.PeopleNowPresentList (Descriptor.Sensors d))
  /\ Descriptor.IssueReportChannels d' = Descriptor.IssueReportChannels d
  /\ Descriptor.Projects d' = Descriptor.Projects d
  /\ Descriptor.Cache d' = Descriptor.Cache d.

Definition hasSensor (d : Descriptor.SpaceDescriptor) : Prop :=
  Descriptor.PeopleNowPresentList (Descriptor.Sensors d) <> [].

(** [updateStatus] on the descriptor, over the values received. *)
Definition updateDescriptors (received : list (Z * Z)) (d : Descriptor.SpaceDescriptor)
  : Descriptor.SpaceDescriptor :=
  fold_left (fun d r => updateDescriptor d (fst r) (snd r)) received d.

(** A descriptor with one sensor entry. *)
Definition exampleDescriptor : Descriptor.SpaceDescriptor :=
  {| Descriptor.API := "0.13"; Descriptor.Space := "LambdaSpace";
     Descriptor.Logo := ""; Descriptor.URL := "https://www.lambdaspace.gr";
     Descriptor.Location := {| Descriptor.Address := ""; Descriptor.Lon := 0;
                               Descriptor.Lat := 0 |};
     Descriptor.State := {| Descriptor.Open := false; Descriptor.Lastchange := 7 |};
     Descriptor.Contact := {| Descriptor.Email := ""; Descriptor.Irc := "";
                              Descriptor.Ml := ""; Descriptor.Twitter := "";
                              Descriptor.Facebook := ""; Descriptor.Foursquare := "" |};
     Descriptor.Sensors := {| Descriptor.PeopleNowPresentList :=
                                [{| Descriptor.Value := 0 |}] |};
     Descriptor.IssueReportChannels := ["email"]; Descriptor.Projects := [];
     Descriptor.Cache := {| Descriptor.Schedule := "m.02" |} |}.

(** The zero value of the descriptor. *)
Definition zeroDescriptor : Descriptor.SpaceDescriptor :=
  {| Descriptor.API := ""; Descriptor.Space := "";
     Descriptor.Logo := ""; Descriptor.URL := "";
     Descriptor.Location := {| Descriptor.Address := ""; Descriptor.Lon := 0;
                               Descriptor.Lat := 0 |};
     Descriptor.State := {| Descriptor.Open := false; Descriptor.Lastchange := 0 |};
     Descriptor.Contact := {| Descriptor.Email := ""; Descriptor.Irc := "";
                              Descriptor.Ml := ""; Descriptor.Twitter := "";
                              Descriptor.Facebook := ""; Descriptor.Foursquare := "" |};
     Descriptor.Sensors := {| Descriptor.PeopleNowPresentList := [] |};
     Descriptor.IssueReportChannels := []; Descriptor.Projects := [];
     Descriptor.Cache := {| Descriptor.Schedule := "" |} |}.

(** The value of a decimal numeral read after [n]. *)
Fixpoint horner (d : Decimal.uint) (n : Z) : Z :=
  match d with
  | Decimal.Nil => n
  | Decimal.D0 d => horner d (n * 10 + 0)
  | Decimal.D1 d => horner d (n * 10 + 1)
  | Decimal.D2 d => horner d (n * 10 + 2)
  | Decimal.D3 d => horner d (n * 10 + 3)
  | Decimal.D4 d => horner d (n * 10 + 4)
  | Decimal.D5 d => horner d (n * 10 + 5)
  | Decimal.D6 d => horner d (n * 10 + 6)
  | Decimal.D7 d => horner d (n * 10 + 7)
  | Decimal.D8 d => horner d (n * 10 + 8)
  | Decimal.D9 d => horner d (n * 10 + 9)
  end.

(** *** Further runs *)

Definition exampleStart : Config := initial closed [3; 0] 2 1.

Definition configAfter (schedule : list Choice) (c : Config) : Config :=
  match run schedule c with
  | Some (c', _) => c'
  | None => c
  end.

Definition doneAfter (schedule : list Choice) (c : Config) : list (Z * Z) :=
  match run schedule c with
  | Some (_, done) => done
  | None => []
  end.

(** The start of [exampleSchedule], up to the point where the first
    request has loaded the flag and the count. *)
Definition examplePrefix : list Choice := firstn 4 exampleSchedule.

Definition legacyStart : Legacy.Server :=
  {| Legacy.spaceDescriptor := exampleDescriptor; Legacy.printed := [] |}.

Definition newline : ascii := ascii_of_nat 10.

(** ** The requests of the first version, side by side *)

(** The routes of the first version take no lock, and the HTTP server
    runs each request in a goroutine of its own, so the statements of
    several requests interleave. *)
Module LegacyRequests.

Inductive Route : Type :=
| StatusRoute
| SpaceAPIRoute.

(** What a request serves: [spaceDescriptor.State], or the descriptor. *)
Inductive Served : Type :=
| ServedState (st : Descriptor.state)
| ServedDescriptor (d : Descriptor.SpaceDescriptor).

(** Where a request stands: before the call of [peopleInSpace]; before
    the store of its result in the first sensor entry; before the load
    of this entry and before the store of the flag, which make the
    second statement; before the copy of what [c.JSON] is given; for
    the descriptor, before the encoder reads the sensor entries, which
    the copy shares with the original; and at its end. *)
Inductive RequestPC : Type :=
| QCall
| QStoreValue (v : Z)
| QLoadValue
| QStoreOpen (x : Z)
| QCopy
| QEncode (copy : Descriptor.SpaceDescriptor)
| QDone (served : Served)
| QPanicked (p : PanicKind).

(** A request: its route, what [http.DefaultClient.Do] answers to its
    call of [peopleInSpace], and where it stands. *)
Record Request : Type := {
  route : Route;
  answer : option string * option error;
  pc : RequestPC
}.

(** The descriptor and the output that the requests share, and the
    requests. *)
Record Config : Type := {
  server : Legacy.Server;
  requests : list Request
}.

Definition withDescriptor (s : Legacy.Server) (d : Descriptor.SpaceDescriptor)
  : Legacy.Server :=
  {| Legacy.spaceDescriptor := d; Legacy.printed := Legacy.printed s |}.

(** The [i]-th request, which is [r], moves on to [pc'] and leaves the
    shared state [s]. *)
Definition move (c : Config) (s : Legacy.Server) (i : nat) (r : Request)
  (pc' : RequestPC) : Config :=
  {| server := s;
     requests := setAt i {| route := route r; answer := answer r; pc := pc' |}
                   (requests c) |}.

(** A step of the [i]-th request; [None] when it has ended. The call of
    [peopleInSpace] touches nothing of the descriptor. Of the struct
    that [c.JSON] is given a copy of, only the flag is ever stored to,
    so the copy is one load. *)
Definition step (i : nat) (c : Config) : option Config :=
  let s := server c in
  let d := Legacy.spaceDescriptor s in
  match nth_error (requests c) i with
  | None => None
  | Some r =>
    match pc r with
    | QCall =>
      match Legacy.peopleInSpace (answer r) s with
      | Legacy.Returns v s' => Some (move c s' i r (QStoreValue v))
      | Legacy.Panics p s' => Some (move c s' i r (QPanicked p))
      end
    | QStoreValue v =>
      match Descriptor.PeopleNowPresentList (Descriptor.Sensors d) with
      | [] => Some (move c s i r (QPanicked (IndexOutOfRange 0 0)))
      | _ :: _ => Some (move c (withDescriptor s (storePeople d v)) i r QLoadValue)
      end
    | QLoadValue =>
      match Descriptor.PeopleNowPresentList (Descriptor.Sensors d) with
      | [] => Some (move c s i r (QPanicked (IndexOutOfRange 0 0)))
      | p :: _ => Some (move c s i r (QStoreOpen (Descriptor.Value p)))
      end
    | QStoreOpen x =>
      Some (move c (withDescriptor s (storeOpen d (x >? 0))) i r QCopy)
    | QCopy =>
      match route r with
      | StatusRoute => Some (move c s i r (QDone (ServedState (Descriptor.State d))))
      | SpaceAPIRoute => Some (move c s i r (QEncode d))
      end
    | QEncode copy =>
      Some (move c s i r
              (QDone (ServedDescriptor
                        (Descriptor.withStateSensors copy (Descriptor.State copy)
                           (Descriptor.Sensors d)))))
    | QDone _ | QPanicked _ => None
    end
  end.

(** The run of a schedule, which names the request of each step. *)
Fixpoint run (schedule : list nat) (c : Config) : option Config :=
  match schedule with
  | [] => Some c
  | i :: schedule' =>
    match step i c with
    | None => None
    | Some c' => run schedule' c'
    end
  end.

(** The start: the descriptor as [main] loaded it, and the requests,
    each with its route and the answer to its fetch, before their first
    statement. *)
Definition start (d : Descriptor.SpaceDescriptor)
  (incoming : list (Route * (option string * option error))) : Config :=
  {| server := {| Legacy.spaceDescriptor := d; Legacy.printed := [] |};
     requests := map (fun q => {| route := fst q; answer := snd q; pc := QCall |})
                     incoming |}.

Definition ended (pc : RequestPC) : bool :=
  match pc with
  | QDone _ | QPanicked _ => true
  | _ => false
  end.

(** [x] is a number that one of the requests reads from its body. *)
Definition readBySome (incoming : list (Route * (option string * option error)))
  (x : Z) : Prop :=
  exists rt body err,
    In (rt, (Some body, err)) incoming /\ x = fst (Strconv.Atoi body).

(** The flag is what the second statement computes from a number that
    one of the requests has read. *)
Definition openFromSome (incoming : list (Route * (option string * option error)))
  (st : Descriptor.state) : Prop :=
  exists x, readBySome incoming x /\ Descriptor.Open st = (x >? 0).

(** What holds of a request at each point, with the descriptor [d] of
    the moment, the loaded one being [d0]. *)
Definition requestAt (d0 : Descriptor.SpaceDescriptor)
  (incoming : list (Route * (option string * option error)))
  (d : Descriptor.SpaceDescriptor) (r : Request) : Prop :=
  match pc r with
  | QCall => True
  | QStoreValue v =>
    exists body, fst (answer r) = Some body /\ v = fst (Strconv.Atoi body)
  | QLoadValue =>
    fst (answer r) <> None /\ hasSensor d0 /\ readBySome incoming (loadPeople d)
  | QStoreOpen x =>
    fst (answer r) <> None /\ hasSensor d0 /\ readBySome incoming (loadPeople d)
    /\ readBySome incoming x
  | QCopy =>
    fst (answer r) <> None /\ hasSensor d0 /\ readBySome incoming (loadPeople d)
    /\ openFromSome incoming (Descriptor.State d)
  | QEncode copy =>
    route r = SpaceAPIRoute
    /\ fst (answer r) <> None /\ hasSensor d0 /\ readBySome incoming (loadPeople d)
    /\ sameFrame d0 copy
    /\ Descriptor.Lastchange (Descriptor.State copy)
       = Descriptor.Lastchange (Descriptor.State d0)
    /\ openFromSome incoming (Descriptor.State copy)
  | QDone (ServedState st) =>
    route r = StatusRoute
    /\ fst (answer r) <> None /\ hasSensor d0
    /\ Descriptor.Lastchange st = Descriptor.Lastchange (Descriptor.State d0)
    /\ openFromSome incoming st
  | QDone (ServedDescriptor d') =>
    route r = SpaceAPIRoute
    /\ fst (answer r) <> None /\ hasSensor d0
    /\ sameFrame d0 d'
    /\ Descriptor.Lastchange (Descriptor.State d')
       = Descriptor.Lastchange (Descriptor.State d0)
    /\ openFromSome incoming (Descriptor.State d')
    /\ readBySome incoming (loadPeople d')
  | QPanicked p =>
    (fst (answer r) = None /\ p = NilPointerDereference)
    \/ (fst (answer r) <> None /\ ~ hasSensor d0 /\ p = IndexOutOfRange 0 0)
  end.

Record Inv (d0 : Descriptor.SpaceDescriptor)
  (incoming : list (Route * (option string * option error))) (c : Config) : Prop := {
  inv_incoming : map (fun r => (route r, answer r)) (requests c) = incoming;
  inv_frame : sameFrame d0 (Legacy.spaceDescriptor (server c));
  inv_lastchange :
    Descriptor.Lastchange (Descriptor.State (Legacy.spaceDescriptor (server c)))
    = Descriptor.Lastchange (Descriptor.State d0);
  inv_requests :
    Forall (requestAt d0 incoming (Legacy.spaceDescriptor (server c))) (requests c)
}.

(** The statements that a request has still to run, at most. *)
Definition requestSteps (r : Request) : nat :=
  match pc r with
  | QCall => 6
  | QStoreValue _ => 5
  | QLoadValue => 4
  | QStoreOpen _ => 3
  | QCopy => 2
  | QEncode _ => 1
  | QDone _ | QPanicked _ => 0
  end.

(** Three requests: the first asks for the descriptor and reads 4, the
    second reads 0, the third reads 4. In the schedule the second one
    stores its 0 before the first one computes the flag, and the third
    one stores its 4 before the first one is encoded. *)
Definition threeRequests : list (Route * (option string * option error)) :=
  [(SpaceAPIRoute, (Some "4", None)); (StatusRoute, (Some "0", None));
   (StatusRoute, (Some "4", None))].

Definition tornSchedule : list nat :=
  [0; 0; 1; 1; 0; 0; 0; 2; 2; 0]%nat.

(** The configuration that a schedule ends in. *)
Definition reached (schedule : list nat) (c : Config) : Config :=
  match run schedule c with
  | Some c' => c'
  | None => c
  end.

End LegacyRequests.

Import Strconv.

(** One step of the evaluation of the loop body. *)
Ltac run_step := cbn [GoRun.bind nth_error skipn List.length Nat.leb].

(** * Properties *)

(** ** The occupancy state *)

Lemma ingest_count (s : Status) (n now : Z) :
  PeopleNowPresent (ingest s n now) = n.
Proof. unfold ingest; simpl. destruct (negb _); reflexivity. Qed.

Lemma ingest_open (s : Status) (n now : Z) :
  Open (ingest s n now) = (n >? 0).
Proof. unfold ingest; simpl. destruct (negb _); reflexivity. Qed.

Lemma ingest_lastchange (s : Status) (n now : Z) :
  Lastchange (ingest s n now) =
  if PeopleNowPresent s =? n then Lastchange s else now.
Proof. unfold ingest; simpl. destruct (PeopleNowPresent s =? n); reflexivity. Qed.

Lemma ingest_invariant (s : Status) (n now : Z) :
  openMatchesCount (ingest s n now).
Proof. unfold openMatchesCount. now rewrite ingest_open, ingest_count. Qed.

Lemma updateStatus_app (l1 l2 : list (Z * Z)) (s : Status) :
  updateStatus (l1 ++ l2) s = updateStatus l2 (updateStatus l1 s).
Proof. unfold updateStatus. apply fold_left_app. Qed.

Lemma last_cons_default {A : Type} (l : list A) (x d : A) :
  last (x :: l) d = last l x.
Proof.
  revert x d. induction l as [|y l IH]; intros x d; [reflexivity|].
  change (last (x :: y :: l) d) with (last (y :: l) d).
  now rewrite (IH y d), (IH y x).
Qed.

Lemma updateStatusTrace_last (received : list (Z * Z)) (s : Status) :
  last (updateStatusTrace received s) s = updateStatus received s.
Proof.
  revert s. induction received as [|r received IH]; intros s; [reflexivity|].
  change (updateStatus (r :: received) s)
    with (updateStatus received (ingest s (fst r) (snd r))).
  rewrite <- IH. simpl updateStatusTrace. apply last_cons_default.
Qed.

(** C3. Whatever the stored state and whatever integers are received,
    negative ones included, the state after each iteration of
    [updateStatus] has its open flag equal to [count > 0]; the state
    after the last iteration is the one [updateStatus] ends with. *)
Theorem C3_open_iff_count_positive :
  forall (received : list (Z * Z)) (s : Status),
    Forall openMatchesCount (updateStatusTrace received s)
    /\ (received <> [] -> openMatchesCount (updateStatus received s))
    /\ last (updateStatusTrace received s) s = updateStatus received s.
Proof.
  intros received s. split; [|split].
  - revert s. induction received as [|r received IH]; intros s; cbn.
    + constructor.
    + constructor; [apply ingest_invariant | apply IH].
  - intros Hne. destruct (exists_last Hne) as (front & r & ->).
    rewrite updateStatus_app. cbn. apply ingest_invariant.
  - apply updateStatusTrace_last.
Qed.

Lemma C3_open_iff_count_positive_witness :
  Forall openMatchesCount
    (updateStatusTrace [(3, 100); (-2, 101); (0, 102)]
       {| Open := true; PeopleNowPresent := 0; Lastchange := 7 |})
  /\ openMatchesCount
       (updateStatus [(3, 100); (-2, 101); (0, 102)]
          {| Open := true; PeopleNowPresent := 0; Lastchange := 7 |}).
Proof.
  destruct (C3_open_iff_count_positive [(3, 100); (-2, 101); (0, 102)]
              {| Open := true; PeopleNowPresent := 0; Lastchange := 7 |})
    as (Htrace & Hlast & _).
  split; [exact Htrace | apply Hlast; discriminate].
Defined.

Lemma updateStatus_repeat (c : Z) (clocks : list Z) (s : Status) :
  PeopleNowPresent s = c ->
  Lastchange (updateStatus (map (pair c) clocks) s) = Lastchange s.
Proof.
  revert s. induction clocks as [|t clocks IH]; intros s Hs; [reflexivity|].
  change (updateStatus (map (pair c) (t :: clocks)) s)
    with (updateStatus (map (pair c) clocks) (ingest s c t)).
  rewrite IH by apply ingest_count.
  rewrite ingest_lastchange, Hs, Z.eqb_refl. reflexivity.
Qed.

(** C4. For two consecutive ingestions of [c1] and [c2], the second one
    takes the branch that stores the clock exactly when [c1] differs
    from [c2]: the timestamp is then the clock of the second ingestion,
    and otherwise the one the first ingestion left. Ingesting the same
    [c] again, any number of times, leaves the timestamp of the first
    ingestion in place. *)
Theorem C4_lastchange_updates_iff_count_differs :
  forall (s : Status) (c1 t1 c2 t2 : Z) (clocks : list Z),
    (negb (PeopleNowPresent (ingest s c1 t1) =? c2) = true <-> c1 <> c2)
    /\ Lastchange (ingest (ingest s c1 t1) c2 t2)
       = (if negb (PeopleNowPresent (ingest s c1 t1) =? c2)
          then t2 else Lastchange (ingest s c1 t1))
    /\ (t2 <> Lastchange (ingest s c1 t1) ->
        (Lastchange (ingest (ingest s c1 t1) c2 t2) <> Lastchange (ingest s c1 t1)
         <-> c1 <> c2))
    /\ Lastchange (updateStatus (map (pair c1) clocks) (ingest s c1 t1))
       = Lastchange (ingest s c1 t1).
Proof.
  intros s c1 t1 c2 t2 clocks.
  assert (Hc : PeopleNowPresent (ingest s c1 t1) = c1) by apply ingest_count.
  assert (Hl : Lastchange (ingest (ingest s c1 t1) c2 t2)
               = if c1 =? c2 then Lastchange (ingest s c1 t1) else t2).
  { now rewrite ingest_lastchange, Hc. }
  rewrite Hc. repeat split.
  - intros H Heq. subst c2. now rewrite Z.eqb_refl in H.
  - intros H. apply Z.eqb_neq in H. now rewrite H.
  - rewrite Hl. destruct (c1 =? c2); reflexivity.
  - intros Hd Heq. subst c2. rewrite Z.eqb_refl in Hl. auto.
  - intros Hne. apply Z.eqb_neq in Hne. rewrite Hl, Hne. exact H.
  - now apply updateStatus_repeat.
Qed.

Lemma C4_lastchange_updates_iff_count_differs_witness :
  (Lastchange (ingest (ingest closed 3 100) 5 200) <> Lastchange (ingest closed 3 100)
   <-> 3 <> 5)
  /\ (Lastchange (ingest (ingest closed 3 100) 3 200) <> Lastchange (ingest closed 3 100)
      <-> 3 <> 3)
  /\ Lastchange (updateStatus (map (pair 3) [200; 300; 400]) (ingest closed 3 100))
     = Lastchange (ingest closed 3 100).
Proof.
  destruct (C4_lastchange_updates_iff_count_differs closed 3 100 5 200 [200; 300; 400])
    as (_ & _ & H5 & Hrepeat).
  destruct (C4_lastchange_updates_iff_count_differs closed 3 100 3 200 [])
    as (_ & _ & H3 & _).
  split; [apply H5; vm_compute; discriminate|].
  split; [apply H3; vm_compute; discriminate|].
  exact Hrepeat.
Defined.

(** ** Event extraction *)

Lemma MatchString_startsWith (re : list Atom) (s : string) :
  MatchString re s = true <-> startsWith re s.
Proof.
  split.
  - revert s. induction re as [|a re IH]; intros s H.
    + exists "", s. split; reflexivity.
    + destruct s as [|c s]; [discriminate|]. simpl in H.
      apply andb_true_iff in H as [Ha Hs].
      destruct (IH s Hs) as (p & rest & -> & Hp).
      exists (String c p), rest. split; [reflexivity|].
      simpl. now rewrite Ha, Hp.
  - intros (p & rest & -> & Hp). revert p Hp.
    induction re as [|a re IH]; intros p Hp; [reflexivity|].
    destruct p as [|c p]; [discriminate|]. simpl in Hp.
    apply andb_true_iff in Hp as [Ha Hp].
    simpl. rewrite Ha. simpl. now apply IH.
Qed.

Lemma matchExactly_MatchString (re : list Atom) (s : string) :
  matchExactly re s = true -> MatchString re s = true.
Proof.
  intros H. apply MatchString_startsWith. exists s, "".
  split; [|exact H]. clear H. induction s as [|c s IH]; [reflexivity|].
  simpl. now rewrite <- IH.
Qed.

(** What a topic does to [ret] does not depend on [ret]: it appends
    what it appends to the empty list. *)
Lemma extractTopic_appends (element : Topic) (ret : list HackerspaceEvents) :
  extractTopic element ret =
  (new <- extractTopic element [] ;; Done (ret ++ new)%list).
Proof.
  unfold extractTopic, isRange, index, sliceFrom.
  destruct (Fields (TopicTitle element)) as [|f0 [|f1 [|f2 [|f3 rest]]]];
    cbn [GoRun.bind nth_error skipn List.length Nat.leb];
    repeat match goal with
           | |- context [if ?b then _ else _] =>
             destruct b; cbn [GoRun.bind nth_error skipn List.length Nat.leb]
           end;
    rewrite ?app_nil_r; reflexivity.
Qed.

Lemma extractLoop_appends (topics : list Topic) (ret : list HackerspaceEvents) :
  extractLoop topics ret =
  (new <- extractLoop topics [] ;; Done (ret ++ new)%list).
Proof.
  revert ret. induction topics as [|element topics IH]; intros ret; simpl.
  - now rewrite app_nil_r.
  - rewrite extractTopic_appends.
    destruct (extractTopic element []) as [new|p]; simpl; [|reflexivity].
    rewrite (IH (ret ++ new)%list), (IH new).
    destruct (extractLoop topics []) as [out|p]; simpl; [|reflexivity].
    now rewrite app_assoc.
Qed.

Lemma extractEvents_cons (element : Topic) (topics : list Topic) :
  extractEvents (element :: topics) =
  (new <- extractTopic element [] ;;
   out <- extractEvents topics ;; Done (new ++ out)%list).
Proof.
  unfold extractEvents. simpl.
  destruct (extractTopic element []) as [new|p]; simpl; [|reflexivity].
  apply extractLoop_appends.
Qed.

Lemma extractEvents_app (l1 l2 : list Topic) :
  extractEvents (l1 ++ l2) =
  (o1 <- extractEvents l1 ;; o2 <- extractEvents l2 ;; Done (o1 ++ o2)%list).
Proof.
  induction l1 as [|element l1 IH].
  - simpl. destruct (extractEvents l2); reflexivity.
  - rewrite <- app_comm_cons, !extractEvents_cons, IH.
    destruct (extractTopic element []) as [new|p]; simpl; [|reflexivity].
    destruct (extractEvents l1) as [o1|p]; simpl; [|reflexivity].
    destruct (extractEvents l2) as [o2|p]; simpl; [|reflexivity].
    now rewrite app_assoc.
Qed.

(** C7. The topic with title "12/05/2024 18:00 - 20:00 Lockpicking
    Workshop", slug "lockpicking-night" and id 42 yields exactly the
    record with date "12/05/2024", begin "18:00", end "20:00", title
    "Lockpicking Workshop" and the URL made of the slug and the id. *)
Theorem C7_time_range_example :
  extractEvents
    [topic 42 "12/05/2024 18:00 - 20:00 Lockpicking Workshop" "lockpicking-night"]
  = Done [{| Title := "Lockpicking Workshop"; Date := "12/05/2024";
             Begin := "18:00"; End := "20:00";
             URL := "https://community.lambdaspace.gr/t/lockpicking-night/42" |}].
Proof. vm_compute. reflexivity. Qed.

(** C8. The topic with title "12/05/2024 18:00 General Meetup", which
    has a date and a time but no range, yields exactly the record with
    date "12/05/2024", begin "18:00", an empty end and the title
    "General Meetup", the join of the tokens from index 2 on; this
    holds for every slug and id, which only go into the URL. *)
Theorem C8_no_range_example :
  forall (id : Z) (slug : string),
    extractEvents [topic id "12/05/2024 18:00 General Meetup" slug]
    = Done [{| Title := "General Meetup"; Date := "12/05/2024";
               Begin := "18:00"; End := ""; URL := eventURL slug id |}]
    /\ Join (skipn 2 (Fields "12/05/2024 18:00 General Meetup")) " "
       = "General Meetup".
Proof. intros id slug. split; reflexivity. Qed.

(** C1. The extraction indexes the tokens of a title without looking
    at their number. A title without tokens (empty, or only spaces)
    panics at [fields[0]], and a title whose only token matches the
    date pattern panics at [fields[1]]; the panic ends
    [getScheduledEvents], and nothing is published. Of the titles with
    fewer than two tokens, only those whose single token does not begin
    with a date are dropped without a failure. *)
Theorem C1_short_title_panics :
  forall (id : Z) (slug : string) (ret : list HackerspaceEvents),
    extractTopic (topic id "" slug) ret = Panics (IndexOutOfRange 0 0)
    /\ extractTopic (topic id "   " slug) ret = Panics (IndexOutOfRange 0 0)
    /\ extractTopic (topic id "12/05/2024" slug) ret = Panics (IndexOutOfRange 1 1)
    /\ (forall w : World,
           getScheduledEvents (fetched [topic id "12/05/2024" slug]) w
           = Crashes (IndexOutOfRange 1 1) w)
    /\ (forall title : string,
           match Fields title with
           | [] =>
             extractTopic (topic id title slug) ret = Panics (IndexOutOfRange 0 0)
           | [f0] =>
             extractTopic (topic id title slug) ret
             = if MatchString yearRegexp f0
               then Panics (IndexOutOfRange 1 1) else Done ret
           | _ => True
           end).
Proof.
  intros id slug ret. do 4 (split; [reflexivity|]).
  intros title. unfold extractTopic, index. cbn [TopicTitle topic].
  destruct (Fields title) as [|f0 [|f1 fields]]; cbn [GoRun.bind nth_error List.length].
  - reflexivity.
  - destruct (MatchString yearRegexp f0); reflexivity.
  - exact I.
Qed.

(** C2. When the fetch fails in the network, [Get] returns a nil
    response: [fetchHTTPResource] logs the error and then panics on
    [response.Body] of its deferred call, and so does
    [getScheduledEvents]; the published events are as before. The other
    failures end well: when reading the body fails, and when the body
    does not decode and leaves no topic, the call logs the error,
    returns, and the published events are as before. *)
Theorem C2_network_error_crashes :
  forall (err : error) (w : World),
    fetchHTTPResource (None, Some err) w
    = Crashes NilPointerDereference (logPrint err w)
    /\ getScheduledEvents (networkError err) w
       = Crashes NilPointerDereference (logPrint err w)
    /\ Events (logPrint err w) = Events w
    /\ (forall (body : string) (decoded : list Topic * option error),
           getScheduledEvents
             {| httpGet := (Some {| readBody := body; readErr := Some err |}, None);
                jsonUnmarshal := decoded |} w
           = Returns tt (logPrint err (logPrint err w)))
    /\ (forall body : string,
           getScheduledEvents
             {| httpGet := (Some {| readBody := body; readErr := None |}, None);
                jsonUnmarshal := ([], Some err) |} w
           = Returns tt (logPrint err w)).
Proof. intros err w. repeat split. Qed.

Lemma extractTopic_produces (element : Topic) (ret ret' : list HackerspaceEvents) :
  extractTopic element ret = Done ret' -> ret' <> ret ->
  exists f0 f1 e,
    nth_error (Fields (TopicTitle element)) 0 = Some f0
    /\ nth_error (Fields (TopicTitle element)) 1 = Some f1
    /\ MatchString yearRegexp f0 = true
    /\ MatchString hourRegexp f1 = true
    /\ ret' = (ret ++ [e])%list /\ Date e = f0 /\ Begin e = f1.
Proof.
  unfold extractTopic, isRange, index, sliceFrom.
  destruct (Fields (TopicTitle element)) as [|f0 [|f1 [|f2 [|f3 rest]]]];
    cbn [GoRun.bind nth_error skipn List.length Nat.leb];
    try discriminate;
    destruct (MatchString yearRegexp f0) eqn:Hy;
    cbn [GoRun.bind nth_error skipn List.length Nat.leb];
    try discriminate; try (intros [= <-] Hne; now elim Hne);
    destruct (MatchString hourRegexp f1) eqn:Hh;
    cbn [GoRun.bind nth_error skipn List.length Nat.leb];
    try discriminate; try (intros [= <-] Hne; now elim Hne);
    repeat match goal with
           | |- context [if ?b then _ else _] =>
             destruct b; cbn [GoRun.bind nth_error skipn List.length Nat.leb]
           end;
    try discriminate;
    intros [= <-] _; do 3 eexists; repeat split; first [reflexivity | assumption].
Qed.

Lemma extractTopic_drops (element : Topic) (ret : list HackerspaceEvents) (f0 : string) :
  nth_error (Fields (TopicTitle element)) 0 = Some f0 ->
  MatchString yearRegexp f0 = false
  \/ (exists f1, nth_error (Fields (TopicTitle element)) 1 = Some f1
                 /\ MatchString hourRegexp f1 = false) ->
  extractTopic element ret = Done ret.
Proof.
  unfold extractTopic, index.
  destruct (Fields (TopicTitle element)) as [|g0 [|g1 fields]];
    cbn [GoRun.bind nth_error]; try discriminate.
  - intros [= ->] [Hy | (f1 & [=] & _)]. now rewrite Hy.
  - intros [= ->] [Hy | (f1 & [= ->] & Hh)].
    + now rewrite Hy.
    + destruct (MatchString yearRegexp f0); [|reflexivity]. now rewrite Hh.
Qed.

(** C6, as the claim states it, fails: the patterns are anchored at the
    start only, so a first token "12/05/20245" and a second token
    "18:005", which are not a date and a time in the strict reading,
    still yield a record. *)
Lemma C6_trailing_characters_accepted :
  extractEvents [trailing]
  = Done [{| Title := "Lockpicking"; Date := "12/05/20245"; Begin := "18:005";
             End := ""; URL := "https://community.lambdaspace.gr/t/lockpicking/45" |}]
  /\ nth_error (Fields (TopicTitle trailing)) 0 = Some "12/05/20245"
  /\ nth_error (Fields (TopicTitle trailing)) 1 = Some "18:005"
  /\ matchExactly yearRegexp "12/05/20245" = false
  /\ matchExactly hourRegexp "18:005" = false.
Proof. vm_compute. repeat split. Qed.

(** C6, amended. A topic adds a record only if its first token begins
    with two digits, a slash, two digits, a slash and four digits, and
    its second token begins with two digits, a colon and two digits;
    the record carries these two tokens as date and begin. A title
    whose first token does not begin so is dropped, and so is a title
    whose second token does not begin with a time: [ret] stays as it
    was. *)
Theorem C6_prefix_patterns_gate_extraction :
  forall (element : Topic) (ret : list HackerspaceEvents),
    (forall ret' : list HackerspaceEvents,
        extractTopic element ret = Done ret' -> ret' <> ret ->
        exists f0 f1 e,
          nth_error (Fields (TopicTitle element)) 0 = Some f0
          /\ nth_error (Fields (TopicTitle element)) 1 = Some f1
          /\ startsWith yearRegexp f0 /\ startsWith hourRegexp f1
          /\ ret' = (ret ++ [e])%list /\ Date e = f0 /\ Begin e = f1)
    /\ (forall f0 : string,
           nth_error (Fields (TopicTitle element)) 0 = Some f0 ->
           ~ startsWith yearRegexp f0 ->
           extractTopic element ret = Done ret)
    /\ (forall f0 f1 : string,
           nth_error (Fields (TopicTitle element)) 0 = Some f0 ->
           nth_error (Fields (TopicTitle element)) 1 = Some f1 ->
           ~ startsWith hourRegexp f1 ->
           extractTopic element ret = Done ret).
Proof.
  intros element ret. split; [|split].
  - intros ret' Hrun Hne.
    destruct (extractTopic_produces element ret ret' Hrun Hne)
      as (f0 & f1 & e & H0 & H1 & Hy & Hh & Hret & Hd & Hb).
    exists f0, f1, e. repeat split; try assumption;
      now apply MatchString_startsWith.
  - intros f0 H0 Hno. apply (extractTopic_drops element ret f0 H0). left.
    destruct (MatchString yearRegexp f0) eqn:Hy; [|reflexivity].
    elim Hno. now apply MatchString_startsWith.
  - intros f0 f1 H0 H1 Hno. apply (extractTopic_drops element ret f0 H0). right.
    exists f1. split; [exact H1|].
    destruct (MatchString hourRegexp f1) eqn:Hh; [|reflexivity].
    elim Hno. now apply MatchString_startsWith.
Qed.

Lemma C6_prefix_patterns_gate_extraction_witness :
  extractTopic socialNight [] = Done []
  /\ extractTopic (topic 46 "12/05/2024 Lunch" "lunch") [] = Done []
  /\ startsWith yearRegexp "12/05/2024" /\ startsWith hourRegexp "18:00".
Proof.
  split; [|split].
  - apply (proj1 (proj2 (C6_prefix_patterns_gate_extraction socialNight [])) "Open").
    + reflexivity.
    + intros H. apply MatchString_startsWith in H. discriminate H.
  - apply (proj2 (proj2 (C6_prefix_patterns_gate_extraction
                           (topic 46 "12/05/2024 Lunch" "lunch") []))
             "12/05/2024" "Lunch").
    + reflexivity.
    + reflexivity.
    + intros H. apply MatchString_startsWith in H. discriminate H.
  - destruct (proj1 (C6_prefix_patterns_gate_extraction meetup [])
                [{| Title := "General Meetup"; Date := "12/05/2024";
                    Begin := "18:00"; End := "";
                    URL := eventURL "general-meetup" 44 |}])
      as (f0 & f1 & e & H0 & H1 & Hy & Hh & _).
    + reflexivity.
    + discriminate.
    + injection H0 as <-. injection H1 as <-. split; assumption.
Defined.

(** ** Publishing *)

(** C5, as the claim states it, fails in its last part: the function
    has no result, so a run whose extraction is empty hands its caller
    the same as a run that publishes, and no reading of what is handed
    back tells the two apart. *)
Lemma C5_nothing_reported :
  extractEvents (fst (jsonUnmarshal (fetched [socialNight]))) = Done []
  /\ Events (worldOf (getScheduledEvents (fetched [socialNight]) emptyWorld)) = []
  /\ Events (worldOf (getScheduledEvents (fetched [lockpicking]) emptyWorld)) <> []
  /\ returned (getScheduledEvents (fetched [socialNight]) emptyWorld)
     = returned (getScheduledEvents (fetched [lockpicking]) emptyWorld)
  /\ ~ (exists ok : option unit -> bool,
           ok (returned (getScheduledEvents (fetched [socialNight]) emptyWorld)) = false
           /\ ok (returned (getScheduledEvents (fetched [lockpicking]) emptyWorld)) = true).
Proof.
  repeat split.
  - vm_compute. discriminate.
  - intros (ok & Hquiet & Hgood).
    change (returned (getScheduledEvents (fetched [socialNight]) emptyWorld))
      with (Some tt) in Hquiet.
    change (returned (getScheduledEvents (fetched [lockpicking]) emptyWorld))
      with (Some tt) in Hgood.
    congruence.
Qed.

(** C5, amended. When the fetch answers with a response and the
    extraction over the decoded topics ends with no record, the call
    returns and the published events are the ones from before. In
    every run that returns, the published events are either the ones
    from before or the non-empty result of the extraction: an empty
    result is never published. The function returns no value. *)
Theorem C5_empty_extraction_keeps_events :
  forall (a : Answers) (w : World),
    (forall r : Response,
        fst (httpGet a) = Some r ->
        extractEvents (fst (jsonUnmarshal a)) = Done [] ->
        returned (getScheduledEvents a w) = Some tt
        /\ Events (worldOf (getScheduledEvents a w)) = Events w)
    /\ (forall (v : unit) (w' : World),
           getScheduledEvents a w = Returns v w' ->
           Events w' = Events w
           \/ (Events w' <> []
               /\ extractEvents (fst (jsonUnmarshal a)) = Done (Events w'))).
Proof.
  intros [[response gerr] [topics uerr]] w. unfold getScheduledEvents, fetchHTTPResource.
  cbn [httpGet jsonUnmarshal fst]. split.
  - intros r -> Hempty. destruct (readErr r) as [e|].
    + split; [reflexivity|]. cbn. now destruct gerr.
    + rewrite Hempty. cbn. split; [reflexivity|].
      destruct gerr, uerr; reflexivity.
  - intros v w'. destruct response as [r|]; [|discriminate].
    destruct (readErr r) as [e|].
    + intros [= _ <-]. left. cbn. now destruct gerr.
    + destruct (extractEvents topics) as [ret|p]; [|discriminate].
      destruct ret as [|e ret]; cbn [List.length Nat.ltb Nat.leb].
      * intros [= _ <-]. left. destruct gerr, uerr; reflexivity.
      * intros [= _ <-]. right. cbn. split; [discriminate | reflexivity].
Qed.

Lemma C5_empty_extraction_keeps_events_witness :
  Events (worldOf (getScheduledEvents (fetched [socialNight])
                     {| Events := [{| Title := "Lockpicking Workshop";
                                      Date := "12/05/2024"; Begin := "18:00";
                                      End := "20:00"; URL := "" |}];
                        Log := [] |}))
  = [{| Title := "Lockpicking Workshop"; Date := "12/05/2024"; Begin := "18:00";
        End := "20:00"; URL := "" |}].
Proof.
  apply (proj1 (C5_empty_extraction_keeps_events (fetched [socialNight])
                  {| Events := [{| Title := "Lockpicking Workshop";
                                   Date := "12/05/2024"; Begin := "18:00";
                                   End := "20:00"; URL := "" |}];
                     Log := [] |})
           {| readBody := encodeTopics [socialNight]; readErr := None |}).
  - reflexivity.
  - reflexivity.
Defined.

(** C9. The records come out in the order of the topics. For a topic
    list in which [A] stands before [B] and both yield a record, the
    extraction ends with a result exactly when it does so on the three
    stretches around [A] and [B], and the result is then the records of
    the first stretch, the record of [A], those of the second stretch,
    the record of [B] and those of the third stretch, in this order. *)
Theorem C9_output_order_follows_input :
  forall (before between after : list Topic) (A B : Topic)
         (ea eb : HackerspaceEvents) (out : list HackerspaceEvents),
    extractTopic A [] = Done [ea] ->
    extractTopic B [] = Done [eb] ->
    (extractEvents (before ++ A :: between ++ B :: after) = Done out
     <-> exists o1 o2 o3,
           extractEvents before = Done o1
           /\ extractEvents between = Done o2
           /\ extractEvents after = Done o3
           /\ out = (o1 ++ ea :: o2 ++ eb :: o3)%list).
Proof.
  intros before between after A B ea eb out HA HB.
  rewrite extractEvents_app, extractEvents_cons, HA, extractEvents_app,
    extractEvents_cons, HB.
  destruct (extractEvents before) as [o1|p1]; cbn [GoRun.bind].
  2: { split; [discriminate | intros (? & ? & ? & [=] & _)]. }
  destruct (extractEvents between) as [o2|p2]; cbn [GoRun.bind].
  2: { split; [discriminate | intros (? & ? & ? & _ & [=] & _)]. }
  destruct (extractEvents after) as [o3|p3]; cbn [GoRun.bind].
  2: { split; [discriminate | intros (? & ? & ? & _ & _ & [=] & _)]. }
  split.
  - intros [= <-]. exists o1, o2, o3. repeat split.
  - intros (? & ? & ? & [= <-] & [= <-] & [= <-] & ->). reflexivity.
Qed.

Lemma C9_output_order_follows_input_witness :
  exists o1 o2 o3,
    extractEvents [socialNight] = Done o1
    /\ extractEvents [trailing] = Done o2
    /\ extractEvents [] = Done o3
    /\ [{| Title := "General Meetup"; Date := "12/05/2024"; Begin := "18:00";
           End := ""; URL := eventURL "general-meetup" 44 |};
        {| Title := "Lockpicking"; Date := "12/05/20245"; Begin := "18:005";
           End := ""; URL := eventURL "lockpicking" 45 |};
        {| Title := "Lockpicking Workshop"; Date := "12/05/2024"; Begin := "18:00";
           End := "20:00"; URL := eventURL "lockpicking-night" 42 |}]
       = (o1 ++ {| Title := "General Meetup"; Date := "12/05/2024"; Begin := "18:00";
                   End := ""; URL := eventURL "general-meetup" 44 |}
             :: o2 ++ {| Title := "Lockpicking Workshop"; Date := "12/05/2024";
                         Begin := "18:00"; End := "20:00";
                         URL := eventURL "lockpicking-night" 42 |} :: o3)%list.
Proof.
  refine (proj1 (C9_output_order_follows_input [socialNight] [trailing] []
                   meetup lockpicking
                   {| Title := "General Meetup"; Date := "12/05/2024";
                      Begin := "18:00"; End := "";
                      URL := eventURL "general-meetup" 44 |}
                   {| Title := "Lockpicking Workshop"; Date := "12/05/2024";
                      Begin := "18:00"; End := "20:00";
                      URL := eventURL "lockpicking-night" 42 |} _ _ _) _).
  - vm_compute. reflexivity.
  - vm_compute. reflexivity.
  - vm_compute. reflexivity.
Defined.

(** ** The goroutines *)

Lemma removeAt_perm {A : Type} (l : list A) (i : nat) (x : A) :
  nth_error l i = Some x -> Permutation (x :: removeAt i l) l.
Proof.
  revert i. induction l as [|y l IH]; intros [|i] H; try discriminate.
  - injection H as ->. reflexivity.
  - simpl in H |- *. rewrite perm_swap. constructor. now apply IH.
Qed.

Lemma Forall_setAt {A : Type} (P : A -> Prop) (l : list A) (i : nat) (x : A) :
  Forall P l -> P x -> Forall P (setAt i x l).
Proof.
  intros Hl Hx. revert i. induction Hl as [|y l Hy Hl IH]; intros [|i]; simpl;
    constructor; auto.
Qed.

Lemma readersIn_setAt (l : list HandlerPC) (i : nat) (old new : HandlerPC) :
  nth_error l i = Some old ->
  (readersIn (setAt i new l) + (if holdsRead old then 1 else 0)
   = readersIn l + (if holdsRead new then 1 else 0))%nat.
Proof.
  unfold readersIn. revert i. induction l as [|y l IH]; intros [|i] H; try discriminate.
  - injection H as ->. simpl. destruct (holdsRead old), (holdsRead new); simpl; lia.
  - simpl in H |- *. specialize (IH i H). destruct (holdsRead y); simpl; lia.
Qed.

Lemma readersIn_zero (l : list HandlerPC) :
  readersIn l = 0%nat -> Forall (fun pc => holdsRead pc = false) l.
Proof.
  unfold readersIn. induction l as [|y l IH]; simpl; [constructor|].
  destruct (holdsRead y) eqn:E; simpl; [discriminate|]. intros H. constructor; auto.
Qed.

Lemma afterSome_app (m0 : Status) (done more : list (Z * Z)) (answer : Status) :
  afterSome m0 done answer -> afterSome m0 (done ++ more) answer.
Proof.
  intros (k & Hk & ->). exists k. split.
  - rewrite length_app. lia.
  - rewrite firstn_app. replace (k - List.length done)%nat with 0%nat by lia.
    simpl. now rewrite app_nil_r.
Qed.

Lemma afterSome_all (m0 : Status) (done : list (Z * Z)) :
  afterSome m0 done (updateStatus done m0).
Proof. exists (List.length done). split; [lia|]. now rewrite firstn_all. Qed.

Lemma handlerAt_app m0 done more m pc :
  handlerAt m0 done m pc -> handlerAt m0 (done ++ more) m pc.
Proof. destruct pc; simpl; auto using afterSome_app. Qed.

Lemma handlerAt_memory m0 done m m' pc :
  holdsRead pc = false -> handlerAt m0 done m pc -> handlerAt m0 done m' pc.
Proof. destruct pc; simpl; auto; discriminate. Qed.

(** While [updateStatus] holds the mutex no request holds its read
    lock, so what the requests know does not depend on the memory. *)
Lemma handlers_memory m0 done more m m' hs :
  readersIn hs = 0%nat ->
  Forall (handlerAt m0 done m) hs -> Forall (handlerAt m0 (done ++ more) m') hs.
Proof.
  intros Hz Hall. apply readersIn_zero in Hz.
  induction Hall as [|pc hs Hpc Hall IH]; [constructor|].
  inversion Hz; subst. constructor; auto.
  apply handlerAt_app. now apply (handlerAt_memory m0 done m).
Qed.

Lemma handlers_app m0 done more m hs :
  Forall (handlerAt m0 done m) hs -> Forall (handlerAt m0 (done ++ more) m) hs.
Proof. intros H. eapply Forall_impl; [|exact H]. intros pc. apply handlerAt_app. Qed.

Lemma updateStatus_snoc (done : list (Z * Z)) (n t : Z) (m0 : Status) :
  updateStatus (done ++ [(n, t)]) m0 = ingest (updateStatus done m0) n t.
Proof. now rewrite updateStatus_app. Qed.

Lemma ingest_same (base : Status) (n t : Z) :
  PeopleNowPresent base = n ->
  ingest base n t = {| Open := n >? 0; PeopleNowPresent := n;
                       Lastchange := Lastchange base |}.
Proof. intros H. unfold ingest. simpl. now rewrite H, Z.eqb_refl. Qed.

Lemma ingest_changed (base : Status) (n t : Z) :
  PeopleNowPresent base <> n ->
  ingest base n t = {| Open := n >? 0; PeopleNowPresent := n; Lastchange := t |}.
Proof.
  intros H. unfold ingest. simpl. apply Z.eqb_neq in H. now rewrite H.
Qed.

Lemma stepUpdate_inv m0 values done ch c c' e :
  Inv m0 values done c -> stepUpdate ch c = Some (c', e) ->
  Inv m0 values (done ++ e) c'.
Proof.
  intros [Hw Hr Hx Hu Hh Hv Hc Hk] Hs. unfold stepUpdate in Hs. unfold inFlight in Hv.
  destruct c as [m [wh rc] snds pc hs ks]. simpl in *.
  destruct pc; simpl in *.
  - (* the receive *)
    destruct (nth_error snds (sender ch)) as [n|] eqn:E; [|discriminate].
    injection Hs as <- <-. rewrite app_nil_r.
    constructor; simpl; auto.
    unfold inFlight; simpl. rewrite <- Hv.
    apply Permutation_app_head. now apply removeAt_perm.
  - (* Lock *)
    destruct (wh || (0 <? rc)%nat) eqn:E; [discriminate|].
    apply orb_false_iff in E as [-> E]. apply Nat.ltb_ge in E.
    injection Hs as <- <-. rewrite app_nil_r.
    constructor; simpl; auto. lia.
  - (* the load of the previous count *)
    injection Hs as <- <-. rewrite app_nil_r.
    constructor; simpl; auto. now subst m.
  - (* the store of the count *)
    injection Hs as <- <-. rewrite app_nil_r. destruct Hu as [-> ->].
    constructor; simpl; auto.
    + rewrite <- (app_nil_r done).
      apply (handlers_memory m0 done [] (updateStatus done m0)); auto.
      rewrite <- Hr. auto.
    + right. apply (Permutation_in _ Hv). apply in_or_app. right. now left.
  - (* the store of the flag *)
    injection Hs as <- <-. rewrite app_nil_r. destruct Hu as (Ho & Hl & ->).
    constructor; simpl; auto.
    rewrite <- (app_nil_r done). apply (handlers_memory m0 done [] m); auto.
    rewrite <- Hr. auto.
  - (* the comparison *)
    destruct Hu as (Ho & Hl & ->).
    destruct (negb (PeopleNowPresent (updateStatus done m0) =? PeopleNowPresent m)) eqn:E;
      injection Hs as <- <-.
    + rewrite app_nil_r. constructor; simpl; auto.
      repeat split; auto. apply negb_true_iff in E. now apply Z.eqb_neq in E.
    + apply negb_false_iff in E. apply Z.eqb_eq in E.
      constructor; simpl; auto.
      * rewrite updateStatus_snoc, ingest_same by exact E.
        destruct m as [o n l]; simpl in *. now subst.
      * now apply handlers_app.
      * unfold inFlight; simpl. rewrite map_app. simpl.
        rewrite <- app_assoc. exact Hv.
  - (* the store of the time *)
    destruct Hu as (Ho & Hl & Hne). injection Hs as <- <-.
    constructor; simpl; auto.
    + rewrite updateStatus_snoc, ingest_changed by exact Hne. now rewrite Ho.
    + apply (handlers_memory m0 done _ m); auto. rewrite <- Hr. auto.
    + unfold inFlight; simpl. rewrite map_app. simpl.
      rewrite <- app_assoc. exact Hv.
  - (* Unlock *)
    injection Hs as <- <-. rewrite app_nil_r.
    constructor; simpl; auto.
Qed.

Lemma stepHandler_inv m0 values done i c c' e :
  Inv m0 values done c -> stepHandler i c = Some (c', e) ->
  Inv m0 values (done ++ e) c'.
Proof.
  intros [Hw Hr Hx Hu Hh Hv Hc Hk] Hs. unfold stepHandler in Hs. unfold inFlight in Hv.
  destruct c as [m [wh rc] snds pc hs ks]. simpl in *.
  destruct (nth_error hs i) as [old|] eqn:Hi; [|discriminate].
  pose proof (readersIn_setAt hs i old) as Hcount.
  assert (Hold : handlerAt m0 done m old).
  { rewrite Forall_forall in Hh. apply Hh. eapply nth_error_In; eauto. }
  assert (Hbase : holdsRead old = true -> m = updateStatus done m0).
  { intros Hin. specialize (Hcount HRLock Hi). rewrite Hin in Hcount.
    simpl in Hcount.
    destruct wh; [specialize (Hx eq_refl); lia|].
    destruct pc; simpl in *; try discriminate; exact Hu. }
  destruct old; simpl in *.
  - (* RLock *)
    destruct wh; [discriminate|]. injection Hs as <- <-. rewrite app_nil_r.
    specialize (Hcount HLoadOpen Hi). simpl in Hcount.
    constructor; simpl; auto.
    + lia.
    + discriminate.
    + apply Forall_setAt; simpl; auto.
  - (* the load of the flag *)
    injection Hs as <- <-. rewrite app_nil_r.
    specialize (Hcount (HLoadCount (Open m)) Hi). simpl in Hcount.
    constructor; simpl; auto.
    + lia.
    + apply Forall_setAt; simpl; auto.
  - (* the load of the count *)
    injection Hs as <- <-. rewrite app_nil_r.
    specialize (Hcount (HLoadChange open (PeopleNowPresent m)) Hi). simpl in Hcount.
    constructor; simpl; auto.
    + lia.
    + apply Forall_setAt; simpl; auto.
  - (* the load of the time: the three loads saw one state *)
    injection Hs as <- <-. rewrite app_nil_r.
    specialize (Hcount (HRUnlock {| Open := open; PeopleNowPresent := count;
                                    Lastchange := Lastchange m |}) Hi).
    simpl in Hcount.
    constructor; simpl; auto.
    + lia.
    + apply Forall_setAt; simpl; auto.
      destruct Hold as [-> ->].
      replace {| Open := Open m; PeopleNowPresent := PeopleNowPresent m;
                 Lastchange := Lastchange m |} with m by (now destruct m).
      rewrite (Hbase eq_refl). apply afterSome_all.
  - (* RUnlock *)
    injection Hs as <- <-. rewrite app_nil_r.
    specialize (Hcount (HDone answer) Hi). simpl in Hcount.
    constructor; simpl; auto.
    + lia.
    + intros Hwh. specialize (Hx Hwh). lia.
    + apply Forall_setAt; simpl; auto.
  - discriminate.
Qed.

Lemma stepHackers_inv m0 values done i c c' e :
  Inv m0 values done c -> stepHackers i c = Some (c', e) ->
  Inv m0 values (done ++ e) c'.
Proof.
  intros [Hw Hr Hx Hu Hh Hv Hc Hk] Hs. unfold stepHackers in Hs.
  destruct (nth_error (hackers c) i) as [old|] eqn:Hi; [|discriminate].
  assert (Hold : hackersAt m0 values old).
  { rewrite Forall_forall in Hk. apply Hk. eapply nth_error_In; eauto. }
  destruct old; try discriminate; injection Hs as <- <-; rewrite app_nil_r;
    constructor; simpl; auto; apply Forall_setAt; simpl; auto.
Qed.

Lemma step_inv m0 values done ch c c' e :
  Inv m0 values done c -> step ch c = Some (c', e) ->
  Inv m0 values (done ++ e) c'.
Proof.
  unfold step. destruct (thread ch);
    eauto using stepUpdate_inv, stepHandler_inv, stepHackers_inv.
Qed.

Lemma run_inv m0 values schedule :
  forall done c c' e,
    Inv m0 values done c -> run schedule c = Some (c', e) ->
    Inv m0 values (done ++ e) c'.
Proof.
  induction schedule as [|ch schedule IH]; intros done c c' e HI Hrun; simpl in Hrun.
  - injection Hrun as <- <-. now rewrite app_nil_r.
  - destruct (step ch c) as [[c1 e1]|] eqn:Hstep; [|discriminate].
    destruct (run schedule c1) as [[c2 e2]|] eqn:Hrest; [|discriminate].
    injection Hrun as <- <-. rewrite app_assoc.
    eapply IH; [|exact Hrest]. eapply step_inv; eauto.
Qed.

Lemma initial_inv m0 values requests hackerRequests :
  Inv m0 values [] (initial m0 values requests hackerRequests).
Proof.
  constructor; simpl; auto.
  - unfold readersIn. induction requests; simpl; auto.
  - induction requests; simpl; constructor; simpl; auto.
  - now left.
  - induction hackerRequests; simpl; constructor; simpl; auto.
Qed.

Lemma readersIn_positive (hs : list HandlerPC) :
  (0 < readersIn hs)%nat ->
  exists i pc, nth_error hs i = Some pc /\ holdsRead pc = true.
Proof.
  unfold readersIn. induction hs as [|pc hs IH]; simpl; [lia|].
  destruct (holdsRead pc) eqn:E.
  - intros _. exists 0%nat, pc. auto.
  - intros H. destruct (IH H) as (i & pc' & Hi & Hpc). exists (S i), pc'. auto.
Qed.

Lemma handlers_done_or_not (hs : list HandlerPC) :
  Forall (fun pc => exists answer, pc = HDone answer) hs
  \/ exists i pc, nth_error hs i = Some pc /\ (0 < handlerSteps pc)%nat.
Proof.
  induction hs as [|pc hs [IH | (i & pc' & Hi & Hpc)]].
  - left. constructor.
  - destruct pc; try (right; exists 0%nat; eexists; split; [reflexivity | simpl; lia]).
    left. constructor; eauto.
  - right. exists (S i), pc'. auto.
Qed.

Lemma hackers_done_or_not (ks : list HackersPC) :
  Forall (fun pc => exists answer, pc = KDone answer) ks
  \/ exists i pc, nth_error ks i = Some pc /\ (0 < hackersSteps pc)%nat.
Proof.
  induction ks as [|pc ks [IH | (i & pc' & Hi & Hpc)]].
  - left. constructor.
  - destruct pc; try (right; exists 0%nat; eexists; split; [reflexivity | simpl; lia]).
    left. constructor; eauto.
  - right. exists (S i), pc'. auto.
Qed.

Lemma handler_in_read_can_step (c : Config) (i : nat) (pc : HandlerPC) :
  nth_error (handlers c) i = Some pc -> holdsRead pc = true -> canStep c.
Proof.
  intros Hi Hpc. exists (byHandler i). unfold step, stepHandler. cbn [thread byHandler].
  rewrite Hi. destruct pc; try discriminate; eauto.
Qed.

Lemma handler_can_step (c : Config) (i : nat) (pc : HandlerPC) :
  writerHeld (mutex c) = false ->
  nth_error (handlers c) i = Some pc -> (0 < handlerSteps pc)%nat -> canStep c.
Proof.
  intros Hw Hi Hpc. exists (byHandler i). unfold step, stepHandler. cbn [thread byHandler].
  rewrite Hi. destruct pc; simpl in Hpc; try lia; try rewrite Hw; eauto.
Qed.

Lemma hackers_can_step (c : Config) (i : nat) (pc : HackersPC) :
  nth_error (hackers c) i = Some pc -> (0 < hackersSteps pc)%nat -> canStep c.
Proof.
  intros Hi Hpc. exists (byHackers i). unfold step, stepHackers. cbn [thread byHackers].
  rewrite Hi. destruct pc; simpl in Hpc; try lia; eauto.
Qed.

Lemma total_setAt {A : Type} (f : A -> nat) (l : list A) (i : nat) (old new : A) :
  nth_error l i = Some old ->
  (total f (setAt i new l) + f old = total f l + f new)%nat.
Proof.
  revert i. induction l as [|y l IH]; intros [|i] H; try discriminate.
  - injection H as ->. simpl. lia.
  - simpl in H |- *. specialize (IH i H). lia.
Qed.

Lemma removeAt_length {A : Type} (l : list A) (i : nat) (x : A) :
  nth_error l i = Some x -> S (List.length (removeAt i l)) = List.length l.
Proof.
  revert i. induction l as [|y l IH]; intros [|i] H; try discriminate.
  - reflexivity.
  - simpl in H |- *. now rewrite (IH i H).
Qed.

Lemma total_repeat {A : Type} (f : A -> nat) (x : A) (n : nat) :
  total f (repeat x n) = (n * f x)%nat.
Proof. induction n as [|n IH]; simpl; [reflexivity|]. rewrite IH. lia. Qed.

Lemma total_zero {A : Type} (f : A -> nat) (l : list A) :
  total f l = 0%nat -> Forall (fun x => f x = 0%nat) l.
Proof.
  induction l as [|x l IH]; simpl; intros H; constructor; [lia | apply IH; lia].
Qed.

Lemma step_decreases (ch : Choice) (c c' : Config) (e : list (Z * Z)) :
  step ch c = Some (c', e) -> (stepsLeft c' < stepsLeft c)%nat.
Proof.
  unfold step, stepsLeft. destruct (thread ch) as [|i|i].
  - unfold stepUpdate. destruct (update c) eqn:Hpc.
    + destruct (nth_error (senders c) (sender ch)) as [n|] eqn:E; [|discriminate].
      intros [= <- <-]. simpl. pose proof (removeAt_length _ _ _ E). lia.
    + destruct (writerHeld (mutex c) || (0 <? readerCount (mutex c))%nat);
        [discriminate|]. intros [= <- <-]. simpl. lia.
    + intros [= <- <-]. simpl. lia.
    + intros [= <- <-]. simpl. lia.
    + intros [= <- <-]. simpl. lia.
    + destruct (negb _); intros [= <- <-]; simpl; lia.
    + intros [= <- <-]. simpl. lia.
    + intros [= <- <-]. simpl. lia.
  - unfold stepHandler. destruct (nth_error (handlers c) i) as [pc|] eqn:Hi; [|discriminate].
    pose proof (total_setAt handlerSteps (handlers c) i pc) as Ht.
    destruct pc; try discriminate;
      try (destruct (writerHeld (mutex c)); [discriminate|]);
      intros [= <- <-]; simpl;
      match goal with
      | |- context [setAt i ?new _] => specialize (Ht new Hi); simpl in Ht; lia
      end.
  - unfold stepHackers. destruct (nth_error (hackers c) i) as [pc|] eqn:Hi; [|discriminate].
    pose proof (total_setAt hackersSteps (hackers c) i pc) as Ht.
    destruct pc; try discriminate; intros [= <- <-]; simpl;
      match goal with
      | |- context [setAt i ?new _] => specialize (Ht new Hi); simpl in Ht; lia
      end.
Qed.

(** In a configuration that the invariant holds for, either everything
    is done or some goroutine can take a step. *)
Lemma inv_progress m0 values done c :
  Inv m0 values done c -> finished c \/ canStep c.
Proof.
  intros [Hw Hr Hx Hu Hh Hv Hc Hk].
  assert (Hupd : forall ch c' e, stepUpdate ch c = Some (c', e) -> canStep c).
  { intros ch c' e H. exists {| thread := UpdateStatus; sender := sender ch;
                                clock := clock ch |}, c', e.
    unfold step. cbn [thread]. unfold stepUpdate in *.
    cbn [sender clock] in *. exact H. }
  destruct (update c) eqn:Hpc.
  - destruct (senders c) as [|n rest] eqn:Hs.
    + destruct (handlers_done_or_not (handlers c)) as [Hhs | (i & pc & Hi & Hleft)].
      * destruct (hackers_done_or_not (hackers c)) as [Hks | (i & pc & Hi & Hleft)].
        -- left. repeat split; assumption.
        -- right. eapply hackers_can_step; eauto.
      * right. eapply handler_can_step; eauto.
    + right. eapply (Hupd (byUpdate 0 0)). unfold stepUpdate.
      rewrite Hpc, Hs. reflexivity.
  - right. simpl in Hw.
    destruct (readerCount (mutex c)) as [|k] eqn:Hrc.
    + eapply (Hupd (byUpdate 0 0)). unfold stepUpdate.
      rewrite Hpc, Hw, Hrc. reflexivity.
    + destruct (readersIn_positive (handlers c)) as (i & pc & Hi & Hin); [lia|].
      eapply handler_in_read_can_step; eauto.
  - right. eapply (Hupd (byUpdate 0 0)). unfold stepUpdate. rewrite Hpc. reflexivity.
  - right. eapply (Hupd (byUpdate 0 0)). unfold stepUpdate. rewrite Hpc. reflexivity.
  - right. eapply (Hupd (byUpdate 0 0)). unfold stepUpdate. rewrite Hpc. reflexivity.
  - right.
    destruct (negb (previousPeoplePresent =? PeopleNowPresent (memory c))) eqn:E;
      eapply (Hupd (byUpdate 0 0)); unfold stepUpdate; rewrite Hpc, E; reflexivity.
  - right. eapply (Hupd (byUpdate 0 0)). unfold stepUpdate. rewrite Hpc. reflexivity.
  - right. eapply (Hupd (byUpdate 0 0)). unfold stepUpdate. rewrite Hpc. reflexivity.
Qed.

Lemma run_app (s1 s2 : list Choice) :
  forall c,
    run (s1 ++ s2) c =
    match run s1 c with
    | Some (c1, e1) =>
      match run s2 c1 with
      | Some (c2, e2) => Some (c2, (e1 ++ e2)%list)
      | None => None
      end
    | None => None
    end.
Proof.
  induction s1 as [|ch s1 IH]; intros c; cbn [app run].
  - destruct (run s2 c) as [[c2 e2]|]; reflexivity.
  - destruct (step ch c) as [[c1 e1]|]; [|reflexivity].
    rewrite IH. destruct (run s1 c1) as [[c2 e2]|]; [|reflexivity].
    destruct (run s2 c2) as [[c3 e3]|]; [|reflexivity].
    now rewrite app_assoc.
Qed.

(** From a configuration that the invariant holds for, some schedule
    takes the goroutines to the end. *)
Lemma run_completes m0 values (n : nat) :
  forall done c,
    (stepsLeft c <= n)%nat -> Inv m0 values done c ->
    exists more c' later,
      run more c = Some (c', later) /\ finished c'
      /\ Inv m0 values (done ++ later) c'.
Proof.
  induction n as [|n IH]; intros done c Hn HI.
  - destruct (inv_progress _ _ _ _ HI) as [Hf | (ch & c1 & e1 & Hs)].
    + exists [], c, []. rewrite app_nil_r.
      split; [reflexivity|]. split; [exact Hf | exact HI].
    + apply step_decreases in Hs. lia.
  - destruct (inv_progress _ _ _ _ HI) as [Hf | (ch & c1 & e1 & Hs)].
    + exists [], c, []. rewrite app_nil_r.
      split; [reflexivity|]. split; [exact Hf | exact HI].
    + pose proof (step_decreases _ _ _ _ Hs) as Hd.
      pose proof (step_inv _ _ _ _ _ _ _ HI Hs) as HI1.
      destruct (IH (done ++ e1)%list c1 ltac:(lia) HI1) as (more & c' & later & Hr & Hf & HI').
      exists (ch :: more), c', (e1 ++ later)%list. cbn [run]. rewrite Hs, Hr.
      rewrite app_assoc. split; [reflexivity|]. split; [exact Hf | exact HI'].
Qed.

(** C10. Take any schedule of the goroutine of [updateStatus], with the
    values that concurrent senders hand to it in whatever order the
    schedule picks, of any number of requests to the status route and
    of any number of requests to the hackers route, interleaved at the
    level of single loads and stores. Every answer of the status route
    is the state after a whole number of the completed iterations (or
    the state of the start), never a mix of two states. Whenever
    [updateStatus] waits for the next value, the memory is the result
    of the completed iterations applied one after the other; once no
    value is left to send, these iterations are the values sent, in
    some order. The hackers route, which reads the count alone,
    answers the count of the start or one of the values sent. And the
    end is reached: every run goes on, under some schedule, to a
    configuration where every value is ingested and every request
    answered, and there the memory is the result of ingesting all the
    values sent, one after the other in the order of completion, the
    iterations completed so far coming first. *)
Theorem C10_no_torn_read_and_serial_result :
  forall (m0 : Status) (values : list Z) (requests hackerRequests : nat)
         (schedule : list Choice) (c : Config) (done : list (Z * Z)),
    run schedule (initial m0 values requests hackerRequests) = Some (c, done) ->
    (forall (i : nat) (pc : HandlerPC) (answer : Status),
        nth_error (handlers c) i = Some pc -> answered pc = Some answer ->
        exists k, (k <= List.length done)%nat
                  /\ answer = updateStatus (firstn k done) m0)
    /\ (update c = UReceive -> memory c = updateStatus done m0)
    /\ (update c = UReceive -> senders c = [] ->
        Permutation (map fst done) values)
    /\ (forall (i : nat) (pc : HackersPC) (answer : Z),
           nth_error (hackers c) i = Some pc -> answeredCount pc = Some answer ->
           answer = PeopleNowPresent m0 \/ In answer values)
    /\ (exists (more : list Choice) (c' : Config) (later : list (Z * Z)),
           run (schedule ++ more) (initial m0 values requests hackerRequests)
           = Some (c', (done ++ later)%list)
           /\ finished c'
           /\ memory c' = updateStatus (done ++ later) m0
           /\ Permutation (map fst (done ++ later)) values
           /\ (forall (i : nat) (pc : HandlerPC),
                  nth_error (handlers c') i = Some pc ->
                  exists k, (k <= List.length (done ++ later))%nat
                            /\ pc = HDone (updateStatus (firstn k (done ++ later)) m0))).
Proof.
  intros m0 values requests hackerRequests schedule c done Hrun.
  pose proof (run_inv m0 values schedule [] _ _ _
                (initial_inv m0 values requests hackerRequests) Hrun) as HI.
  cbn [app] in HI.
  destruct (run_completes m0 values (stepsLeft c) done c (le_n _) HI)
    as (more & c' & later & Hmore & Hfin & HI').
  destruct HI as [Hw Hr Hx Hu Hh Hv Hc Hk].
  split; [|split; [|split; [|split]]].
  - intros i pc answer Hi Ha. rewrite Forall_forall in Hh.
    specialize (Hh pc (nth_error_In _ _ Hi)).
    destruct pc; simpl in *; try discriminate; injection Ha as <-; exact Hh.
  - intros Hpc. rewrite Hpc in Hu. exact Hu.
  - intros Hpc Hs. unfold inFlight in Hv. rewrite Hpc, Hs in Hv.
    simpl in Hv. now rewrite app_nil_r in Hv.
  - intros i pc answer Hi Ha. rewrite Forall_forall in Hk.
    specialize (Hk pc (nth_error_In _ _ Hi)).
    destruct pc; simpl in *; try discriminate; injection Ha as <-; exact Hk.
  - exists more, c', later. rewrite run_app, Hrun, Hmore.
    destruct Hfin as (Hpc & Hs & Hhs & Hks).
    destruct HI' as [Hw' Hr' Hx' Hu' Hh' Hv' Hc' Hk'].
    split; [reflexivity|]. split; [repeat split; assumption|].
    split; [rewrite Hpc in Hu'; exact Hu'|].
    split.
    + unfold inFlight in Hv'. rewrite Hpc, Hs in Hv'.
      simpl in Hv'. now rewrite app_nil_r in Hv'.
    + intros i pc Hi. rewrite Forall_forall in Hhs, Hh'.
      destruct (Hhs pc (nth_error_In _ _ Hi)) as (answer & ->).
      destruct (Hh' _ (nth_error_In _ _ Hi)) as (k & Hk1 & ->).
      exists k. split; [exact Hk1 | reflexivity].
Qed.

Lemma C10_no_torn_read_and_serial_result_witness :
  (exists k, (k <= 2)%nat
             /\ {| Open := true; PeopleNowPresent := 3; Lastchange := 100 |}
                = updateStatus (firstn k [(3, 100); (0, 200)]) closed)
  /\ {| Open := false; PeopleNowPresent := 0; Lastchange := 200 |}
     = updateStatus [(3, 100); (0, 200)] closed
  /\ Permutation [3; 0] [3; 0].
Proof.
  destruct (C10_no_torn_read_and_serial_result closed [3; 0] 2 1 exampleSchedule
              {| memory := {| Open := false; PeopleNowPresent := 0; Lastchange := 200 |};
                 mutex := {| writerHeld := false; readerCount := 0 |};
                 senders := []; update := UReceive;
                 handlers := [HDone closed;
                              HDone {| Open := true; PeopleNowPresent := 3;
                                       Lastchange := 100 |}];
                 hackers := [KDone 0] |}
              [(3, 100); (0, 200)])
    as (Hread & Hfinal & Hperm & _).
  - vm_compute. reflexivity.
  - split; [|split].
    + apply (Hread 1%nat (HDone {| Open := true; PeopleNowPresent := 3;
                                   Lastchange := 100 |})); reflexivity.
    + apply Hfinal. reflexivity.
    + apply Hperm; reflexivity.
Defined.

(** * Further properties *)

(** ** Event extraction and publishing *)

Lemma extractTopic_one_or_none (element : Topic) :
  (exists p, extractTopic element [] = Panics p)
  \/ extractTopic element [] = Done []
  \/ (exists e, extractTopic element [] = Done [e]).
Proof.
  unfold extractTopic, isRange, index, sliceFrom.
  destruct (Fields (TopicTitle element)) as [|f0 [|f1 [|f2 [|f3 rest]]]]; run_step;
    repeat match goal with
           | |- context [if ?b then _ else _] => destruct b; run_step
           end;
    first [ left; eexists; reflexivity
          | right; left; reflexivity
          | right; right; eexists; reflexivity ].
Qed.

Lemma extractEvents_provenance (topics : list Topic) :
  forall out,
    extractEvents topics = Done out ->
    Forall2 (fun element e => extractTopic element [] = Done [e])
            (filter yieldsRecord topics) out.
Proof.
  induction topics as [|element topics IH]; intros out H.
  - injection H as <-. constructor.
  - rewrite extractEvents_cons in H. cbn [filter]. unfold yieldsRecord.
    destruct (extractTopic_one_or_none element) as [(p & E) | [E | (e & E)]];
      rewrite E in H |- *; cbn [GoRun.bind] in H; try discriminate.
    + destruct (extractEvents topics) as [o|p]; cbn [GoRun.bind] in H; [|discriminate].
      injection H as <-. now apply IH.
    + destruct (extractEvents topics) as [o|p]; cbn [GoRun.bind] in H; [|discriminate].
      injection H as <-. constructor; [exact E | now apply IH].
Qed.

(** X1. When the extraction ends with a result, its records are, one
    for one and in order, the records of the topics that yield one: no
    record comes from anywhere else, and there are at most as many
    records as topics. *)
Theorem X1_records_come_from_topics :
  forall (topics : list Topic) (out : list HackerspaceEvents),
    extractEvents topics = Done out ->
    Forall2 (fun element e => extractTopic element [] = Done [e])
            (filter yieldsRecord topics) out
    /\ (List.length out <= List.length topics)%nat.
Proof.
  intros topics out H. pose proof (extractEvents_provenance topics out H) as HF.
  split; [exact HF|].
  rewrite <- (Forall2_length HF). apply filter_length_le.
Qed.

Lemma extractTopic_enough (element : Topic) (ret : list HackerspaceEvents) :
  if enoughTokens (Fields (TopicTitle element))
  then exists ret', extractTopic element ret = Done ret'
  else extractTopic element ret
       = Panics (IndexOutOfRange (List.length (Fields (TopicTitle element)))
                                 (List.length (Fields (TopicTitle element))))
       /\ (List.length (Fields (TopicTitle element)) <= 3)%nat.
Proof.
  unfold extractTopic, isRange, index, sliceFrom, enoughTokens.
  destruct (Fields (TopicTitle element)) as [|f0 [|f1 [|f2 [|f3 rest]]]]; run_step;
    try destruct (MatchString yearRegexp f0); cbn [negb andb]; run_step;
    try destruct (MatchString hourRegexp f1); cbn [negb andb]; run_step;
    try destruct (String.eqb f2 "-"); cbn [negb andb]; run_step;
    try destruct (MatchString hourRegexp f3); run_step;
    first [ split; [reflexivity | lia] | eexists; reflexivity ].
Qed.

Lemma extractEvents_done_enough (topics : list Topic) :
  forall out,
    extractEvents topics = Done out ->
    Forall (fun element => enoughTokens (titleTokens element) = true) topics.
Proof.
  unfold titleTokens.
  induction topics as [|element topics IH]; intros out H; [constructor|].
  rewrite extractEvents_cons in H.
  pose proof (extractTopic_enough element []) as He.
  destruct (enoughTokens (Fields (TopicTitle element))) eqn:Hen.
  - destruct He as (new & Hnew). rewrite Hnew in H. cbn [GoRun.bind] in H.
    destruct (extractEvents topics) as [o|p]; [|discriminate].
    constructor; [exact Hen | now apply (IH o)].
  - destruct He as [Hp _]. rewrite Hp in H. discriminate.
Qed.

Lemma extractEvents_panic_source (topics : list Topic) :
  forall p,
    extractEvents topics = Panics p ->
    exists element,
      In element topics
      /\ enoughTokens (titleTokens element) = false
      /\ p = IndexOutOfRange (List.length (titleTokens element))
                             (List.length (titleTokens element)).
Proof.
  unfold titleTokens.
  induction topics as [|element topics IH]; intros p H; [discriminate|].
  rewrite extractEvents_cons in H.
  pose proof (extractTopic_enough element []) as He.
  destruct (enoughTokens (Fields (TopicTitle element))) eqn:Hen.
  - destruct He as (new & Hnew). rewrite Hnew in H. cbn [GoRun.bind] in H.
    destruct (extractEvents topics) as [o|q]; [discriminate|].
    cbn [GoRun.bind] in H. injection H as <-.
    destruct (IH q eq_refl) as (bad & Hin & Hbad & Hq).
    exists bad. split; [now right | now split].
  - destruct He as [Hp _]. rewrite Hp in H. injection H as <-.
    exists element. split; [now left | now split].
Qed.

(** X2. The extraction ends with a result exactly when every title has
    enough tokens for the accesses of the loop body. Otherwise it
    panics at the first title that has not, with an index out of range
    at the number of its tokens, which is at most 3; the slices
    [fields[4:]] and [fields[2:]] never panic. *)
Theorem X2_extraction_stops_at_first_short_title :
  forall topics : list Topic,
    match extractEvents topics with
    | Done _ => Forall (fun element => enoughTokens (titleTokens element) = true) topics
    | Panics p =>
      exists before element after,
        topics = (before ++ element :: after)%list
        /\ Forall (fun element => enoughTokens (titleTokens element) = true) before
        /\ enoughTokens (titleTokens element) = false
        /\ (List.length (titleTokens element) <= 3)%nat
        /\ p = IndexOutOfRange (List.length (titleTokens element))
                               (List.length (titleTokens element))
    end.
Proof.
  unfold titleTokens.
  induction topics as [|element topics IH]; [constructor|].
  rewrite extractEvents_cons.
  pose proof (extractTopic_enough element []) as He.
  destruct (enoughTokens (Fields (TopicTitle element))) eqn:Hen.
  - destruct He as (new & ->). cbn [GoRun.bind].
    destruct (extractEvents topics) as [out|p]; cbn [GoRun.bind].
    + constructor; assumption.
    + destruct IH as (before & bad & after & -> & Hb & Hbad & Hlen & ->).
      exists (element :: before), bad, after. repeat split; auto.
  - destruct He as [-> Hlen]. cbn [GoRun.bind].
    exists [], element, topics. repeat split; auto.
Qed.

(** X3. [getScheduledEvents] returns exactly when [Get] gave a
    response and either reading the body failed or every decoded title
    has enough tokens. It panics with a nil dereference when [Get] gave
    no response, and with an index out of range when a title is too
    short; a panic leaves the published events as they were. *)
Theorem X3_refresh_outcomes :
  forall (a : Answers) (w : World),
    match getScheduledEvents a w with
    | Returns _ w' =>
      exists r, fst (httpGet a) = Some r
                /\ (readErr r <> None
                    \/ Forall (fun element => enoughTokens (titleTokens element) = true)
                              (fst (jsonUnmarshal a)))
    | Crashes p w' =>
      Events w' = Events w
      /\ ((fst (httpGet a) = None /\ p = NilPointerDereference)
          \/ (exists r element,
                 fst (httpGet a) = Some r /\ readErr r = None
                 /\ In element (fst (jsonUnmarshal a))
                 /\ enoughTokens (titleTokens element) = false
                 /\ p = IndexOutOfRange (List.length (titleTokens element))
                                        (List.length (titleTokens element))))
    end.
Proof.
  intros [[response gerr] [topics uerr]] w.
  unfold getScheduledEvents, fetchHTTPResource. cbn [httpGet jsonUnmarshal fst].
  destruct response as [r|].
  - destruct (readErr r) as [e|] eqn:Hr.
    + exists r. split; [reflexivity|]. left. congruence.
    + destruct (extractEvents topics) as [ret|p] eqn:Hx.
      * pose proof (extractEvents_done_enough topics ret Hx) as H.
        destruct (0 <? List.length ret)%nat; exists r; auto.
      * destruct (extractEvents_panic_source topics p Hx) as (element & Hin & Hbad & ->).
        split; [destruct gerr, uerr; reflexivity|].
        right. exists r, element. repeat split; auto.
  - split; [destruct gerr; reflexivity|]. left. split; reflexivity.
Qed.

Lemma startsWith_length (re : list Atom) (s : string) :
  startsWith re s -> (List.length re <= String.length s)%nat.
Proof.
  intros H. apply MatchString_startsWith in H. revert s H.
  induction re as [|a re IH]; intros s H; simpl; [lia|].
  destruct s as [|c s]; [discriminate|]. simpl in H.
  apply andb_true_iff in H as [_ H]. specialize (IH s H). simpl. lia.
Qed.

Lemma extractTopic_wellFormed (element : Topic) (e : HackerspaceEvents) :
  extractTopic element [] = Done [e] -> wellFormedEvent e.
Proof.
  unfold extractTopic, isRange, index, sliceFrom, wellFormedEvent.
  destruct (Fields (TopicTitle element)) as [|f0 [|f1 [|f2 [|f3 rest]]]]; run_step;
    try discriminate;
    destruct (MatchString yearRegexp f0) eqn:Hy; run_step; try discriminate;
    destruct (MatchString hourRegexp f1) eqn:Hh; run_step; try discriminate;
    try (destruct (String.eqb f2 "-"); run_step; try discriminate);
    try (destruct (MatchString hourRegexp f3) eqn:H3; run_step; try discriminate);
    intros [= <-]; cbn [Date Begin End URL];
    (split; [now apply MatchString_startsWith|]);
    (split; [now apply MatchString_startsWith|]);
    (split; [first [now left | right; now apply MatchString_startsWith]|]);
    eauto.
Qed.

Lemma extractEvents_wellFormed (topics : list Topic) (out : list HackerspaceEvents) :
  extractEvents topics = Done out -> Forall wellFormedEvent out.
Proof.
  intros H. apply extractEvents_provenance in H.
  induction H as [|element e kept out He _ IH]; constructor; auto.
  now apply (extractTopic_wellFormed element).
Qed.

(** X4. If every published record has a date that begins with the date
    pattern, a begin that begins with the time pattern, an end that is
    empty or begins with the time pattern, and a topic URL, then so has
    every published record after [getScheduledEvents], however it
    ends; dates have 10 bytes or more and begins 5 or more. *)
Theorem X4_published_events_stay_well_formed :
  forall (a : Answers) (w : World),
    Forall wellFormedEvent (Events w) ->
    Forall (fun e => wellFormedEvent e
                     /\ (10 <= String.length (Date e))%nat
                     /\ (5 <= String.length (Begin e))%nat)
           (Events (worldOf (getScheduledEvents a w))).
Proof.
  intros a w Hw.
  assert (H : Forall wellFormedEvent (Events (worldOf (getScheduledEvents a w)))).
  { destruct a as [[response gerr] [topics uerr]].
    unfold getScheduledEvents, fetchHTTPResource. cbn [httpGet jsonUnmarshal fst].
    destruct response as [r|]; [|destruct gerr; exact Hw].
    destruct (readErr r) as [e|]; [destruct gerr; exact Hw|].
    pose proof (extractEvents_wellFormed topics) as Hx.
    destruct (extractEvents topics) as [ret|p]; [|destruct gerr, uerr; exact Hw].
    destruct (0 <? List.length ret)%nat; [apply Hx; reflexivity|].
    destruct gerr, uerr; exact Hw. }
  eapply Forall_impl; [|exact H].
  intros e He. split; [exact He|].
  destruct He as (Hd & Hb & _). split.
  - apply (startsWith_length yearRegexp). exact Hd.
  - apply (startsWith_length hourRegexp). exact Hb.
Qed.

Lemma X4_published_events_stay_well_formed_witness :
  Forall (fun e => wellFormedEvent e
                   /\ (10 <= String.length (Date e))%nat
                   /\ (5 <= String.length (Begin e))%nat)
         (Events (worldOf (getScheduledEvents (fetched [socialNight; trailing])
                             lockpickingPublished))).
Proof.
  apply (X4_published_events_stay_well_formed
           (fetched [socialNight; trailing]) lockpickingPublished).
  apply (extractEvents_wellFormed [lockpicking]). vm_compute. reflexivity.
Defined.

Lemma X1_records_come_from_topics_witness :
  Forall2 (fun element e => extractTopic element [] = Done [e])
          (filter yieldsRecord [socialNight; lockpicking; socialNight; meetup])
          [lockpickingRecord;
           {| Title := "General Meetup"; Date := "12/05/2024"; Begin := "18:00";
              End := ""; URL := eventURL "general-meetup" 44 |}]
  /\ (2 <= 4)%nat.
Proof.
  apply (X1_records_come_from_topics [socialNight; lockpicking; socialNight; meetup]).
  vm_compute. reflexivity.
Defined.

(** X5. With the same answers, a second run of [getScheduledEvents]
    leaves the published events of the first; whether a run returns
    does not depend on the world it starts in; and a run that changes
    the published events leaves the same events from any world. *)
Theorem X5_refresh_is_idempotent :
  forall (a : Answers) (w w' : World),
    Events (worldOf (getScheduledEvents a (worldOf (getScheduledEvents a w))))
    = Events (worldOf (getScheduledEvents a w))
    /\ (returned (getScheduledEvents a w') = returned (getScheduledEvents a w))
    /\ (Events (worldOf (getScheduledEvents a w)) <> Events w ->
        Events (worldOf (getScheduledEvents a w'))
        = Events (worldOf (getScheduledEvents a w))).
Proof.
  intros [[response gerr] [topics uerr]] w w'.
  unfold getScheduledEvents, fetchHTTPResource. cbn [httpGet jsonUnmarshal fst].
  destruct response as [r|]; [destruct (readErr r) as [e|]|];
    [ | destruct (extractEvents topics) as [ret|p];
        [destruct (0 <? List.length ret)%nat|] | ];
    destruct gerr, uerr; cbn; repeat split; try reflexivity;
    intros H; now elim H.
Qed.

(** X6. [getScheduledEvents] only appends to the log, three entries
    at most. The error of [Get] is logged whatever happens next, the
    error of reading the body is logged, and the error of the decoding
    is logged when the body was read; with no error nothing is
    logged. *)
Theorem X6_reported_errors_are_logged :
  forall (a : Answers) (w : World),
    (exists added, Log (worldOf (getScheduledEvents a w)) = (Log w ++ added)%list
                   /\ (List.length added <= 3)%nat)
    /\ (forall e, snd (httpGet a) = Some e ->
                  In e (Log (worldOf (getScheduledEvents a w))))
    /\ (forall r e, fst (httpGet a) = Some r -> readErr r = Some e ->
                    In e (Log (worldOf (getScheduledEvents a w))))
    /\ (forall r e, fst (httpGet a) = Some r -> readErr r = None ->
                    snd (jsonUnmarshal a) = Some e ->
                    In e (Log (worldOf (getScheduledEvents a w))))
    /\ (snd (httpGet a) = None ->
        (forall r, fst (httpGet a) = Some r -> readErr r = None) ->
        snd (jsonUnmarshal a) = None ->
        Log (worldOf (getScheduledEvents a w)) = Log w).
Proof.
  intros [[response gerr] [topics uerr]] w.
  unfold getScheduledEvents, fetchHTTPResource. cbn [httpGet jsonUnmarshal fst snd].
  split.
  { destruct response as [r|]; [destruct (readErr r) as [e|]|];
      [ | destruct (extractEvents topics) as [ret|p];
          [destruct (0 <? List.length ret)%nat|] | ];
      destruct gerr, uerr; cbn; rewrite <- ?app_assoc;
      eexists; (split; [try reflexivity; symmetry; apply app_nil_r | simpl; lia]). }
  repeat split.
  - intros e ->. destruct response as [r|]; [destruct (readErr r) as [e'|]|];
      [ | destruct (extractEvents topics) as [ret|p];
          [destruct (0 <? List.length ret)%nat|] | ];
      destruct uerr; cbn; rewrite ?in_app_iff; simpl; tauto.
  - intros r e [= ->] ->. destruct gerr; cbn; rewrite ?in_app_iff; simpl; tauto.
  - intros r e [= ->] -> ->.
    destruct (extractEvents topics) as [ret|p];
      [destruct (0 <? List.length ret)%nat|];
      destruct gerr; cbn; rewrite ?in_app_iff; simpl; tauto.
  - intros -> Hr ->. destruct response as [r|]; [|reflexivity].
    rewrite (Hr r eq_refl).
    destruct (extractEvents topics) as [ret|p];
      [destruct (0 <? List.length ret)%nat|]; reflexivity.
Qed.

Lemma X5_refresh_is_idempotent_witness :
  Events (worldOf (getScheduledEvents (fetched [lockpicking]) lockpickingPublished))
  = Events (worldOf (getScheduledEvents (fetched [lockpicking]) emptyWorld)).
Proof.
  apply (proj2 (proj2 (X5_refresh_is_idempotent (fetched [lockpicking]) emptyWorld
                         lockpickingPublished))).
  vm_compute. discriminate.
Defined.

Lemma X6_reported_errors_are_logged_witness :
  In "unexpected EOF"
     (Log (worldOf (getScheduledEvents
                      {| httpGet := (Some {| readBody := "{"; readErr := Some "unexpected EOF" |},
                                     None);
                         jsonUnmarshal := ([], None) |} emptyWorld)))
  /\ Log (worldOf (getScheduledEvents (fetched [lockpicking]) emptyWorld)) = [].
Proof.
  split.
  - apply (proj1 (proj2 (proj2 (X6_reported_errors_are_logged _ emptyWorld)))
             {| readBody := "{"; readErr := Some "unexpected EOF" |} "unexpected EOF");
      reflexivity.
  - apply (proj2 (proj2 (proj2 (proj2 (X6_reported_errors_are_logged
                                         (fetched [lockpicking]) emptyWorld))))).
    + reflexivity.
    + intros r [= <-]. reflexivity.
    + reflexivity.
Defined.

Lemma append_not_empty (w : string) (c : ascii) : w ++ String c "" <> "".
Proof. destruct w; discriminate. Qed.

Lemma fieldsScan_not_empty (s : string) :
  forall (skip : nat) (cur : option string),
    (forall w, cur = Some w -> w <> "") ->
    Forall (fun tok => tok <> "") (fieldsScan s skip cur).
Proof.
  induction s as [|c s IH]; intros skip cur Hcur; cbn [fieldsScan].
  - destruct cur as [w|]; constructor; auto.
  - destruct skip as [|k].
    + destruct (DecodeRuneInString (String c s)) as [r width].
      destruct (IsSpace r).
      * destruct cur as [w|].
        -- constructor; [auto | apply IH; discriminate].
        -- apply IH; discriminate.
      * apply IH. intros w [= <-]. destruct cur; [apply append_not_empty | discriminate].
    + apply IH. intros w Hw. destruct cur as [w'|]; [|discriminate].
      injection Hw as <-. apply append_not_empty.
Qed.

Lemma Fields_not_empty (s : string) : Forall (fun tok => tok <> "") (Fields s).
Proof. apply fieldsScan_not_empty. discriminate. Qed.

Lemma Join_not_empty (tok : string) (toks : list string) (sep : string) :
  tok <> "" -> Join (tok :: toks) sep <> "".
Proof.
  intros H. cbn [Join]. destruct toks; [exact H|].
  destruct tok; [congruence | discriminate].
Qed.

Lemma MatchString_not_empty (s : string) :
  MatchString hourRegexp s = true -> s <> "".
Proof. intros H ->. discriminate. Qed.

(** X18. A record has an empty title exactly when the title of its
    topic is a date, a time, a dash and a time and nothing more; and
    it has an end exactly when the third token is a dash and the fourth
    begins with the time pattern. *)
Theorem X18_title_is_empty_only_for_a_bare_range :
  forall (element : Topic) (e : HackerspaceEvents),
    extractTopic element [] = Done [e] ->
    (Title e = "" <-> (List.length (titleTokens element) = 4%nat /\ End e <> ""))
    /\ (End e <> "" <->
        exists f0 f1 f3 rest,
          titleTokens element = f0 :: f1 :: "-" :: f3 :: rest
          /\ MatchString hourRegexp f3 = true /\ End e = f3).
Proof.
  intros element e. unfold titleTokens.
  pose proof (Fields_not_empty (TopicTitle element)) as Hne.
  unfold extractTopic, isRange, index, sliceFrom.
  destruct (Fields (TopicTitle element)) as [|f0 [|f1 [|f2 [|f3 rest]]]]; run_step;
    try discriminate;
    destruct (MatchString yearRegexp f0); run_step; try discriminate;
    destruct (MatchString hourRegexp f1); run_step; try discriminate.
  - (* three tokens *)
    destruct (String.eqb f2 "-"); run_step; [discriminate|].
    intros [= <-]. cbn [Title End List.length].
    inversion Hne as [|? ? _ H1]; subst. inversion H1 as [|? ? _ H2]; subst.
    inversion H2 as [|? ? Hf2 _]; subst.
    split; split.
    + intros H. now elim (Join_not_empty f2 [] " " Hf2).
    + intros [H _]. discriminate.
    + intros H. now elim H.
    + intros (? & ? & ? & ? & [=] & _).
  - (* four tokens or more *)
    inversion Hne as [|? ? _ H1]; subst. inversion H1 as [|? ? _ H2]; subst.
    inversion H2 as [|? ? Hf2 H3]; subst. inversion H3 as [|? ? Hf3 H4]; subst.
    destruct (String.eqb_spec f2 "-") as [-> | Hdash]; run_step.
    + destruct (MatchString hourRegexp f3) eqn:Hm; run_step; intros [= <-];
        cbn [Title End List.length].
      * pose proof (MatchString_not_empty f3 Hm) as Hf3'.
        split; split.
        -- destruct rest as [|tok rest]; [auto|].
           intros H. inversion H4; subst.
           now elim (Join_not_empty tok rest " ").
        -- intros [Hlen _]. destruct rest; [reflexivity | discriminate].
        -- intros _. exists f0, f1, f3, rest. auto.
        -- intros _. exact Hf3'.
      * split; split.
        -- intros H. now elim (Join_not_empty "-" (f3 :: rest) " ").
        -- intros [_ H]. now elim H.
        -- intros H. now elim H.
        -- intros (? & ? & ? & ? & Heq & Hm' & _). inversion Heq; subst. congruence.
    + intros [= <-]. cbn [Title End List.length].
      split; split.
      * intros H. now elim (Join_not_empty f2 (f3 :: rest) " ").
      * intros [_ H]. now elim H.
      * intros H. now elim H.
      * intros (? & ? & ? & ? & Heq & _). inversion Heq; subst. now elim Hdash.
Qed.

Lemma X18_title_is_empty_only_for_a_bare_range_witness :
  Title {| Title := ""; Date := "12/05/2024"; Begin := "18:00"; End := "20:00";
           URL := eventURL "bare" 47 |} = "".
Proof.
  apply (proj1 (X18_title_is_empty_only_for_a_bare_range
                  (topic 47 "12/05/2024 18:00 - 20:00" "bare") _ eq_refl)).
  split; [reflexivity | discriminate].
Defined.

(** ** The occupancy state, further *)

Lemma ingest_idempotent (s : Status) (n t t' : Z) :
  ingest (ingest s n t) n t' = ingest s n t.
Proof.
  rewrite (ingest_same (ingest s n t) n t') by apply ingest_count.
  rewrite ingest_lastchange. unfold ingest. simpl.
  destruct (PeopleNowPresent s =? n); reflexivity.
Qed.

(** X7. Ingesting the value that was ingested last leaves the whole
    state as it is, so a value that is received twice in a row, at any
    place of what [updateStatus] receives, can be dropped once without
    changing the result. *)
Theorem X7_repeated_value_changes_nothing :
  forall (s : Status) (before after : list (Z * Z)) (n t t' : Z),
    ingest (ingest s n t) n t' = ingest s n t
    /\ updateStatus (before ++ (n, t) :: (n, t') :: after) s
       = updateStatus (before ++ (n, t) :: after) s.
Proof.
  intros s before after n t t'. split; [apply ingest_idempotent|].
  rewrite !updateStatus_app.
  change (updateStatus ((n, t) :: (n, t') :: after) (updateStatus before s))
    with (updateStatus after (ingest (ingest (updateStatus before s) n t) n t')).
  now rewrite ingest_idempotent.
Qed.

Lemma updateStatus_lastchange_in (received : list (Z * Z)) (s : Status) :
  In (Lastchange (updateStatus received s)) (Lastchange s :: map snd received).
Proof.
  revert s. induction received as [|[n t] received IH]; intros s; [now left|].
  change (updateStatus ((n, t) :: received) s)
    with (updateStatus received (ingest s n t)).
  specialize (IH (ingest s n t)). rewrite ingest_lastchange in IH.
  cbn [map snd]. destruct IH as [H|H].
  - destruct (PeopleNowPresent s =? n); [left | right; left]; exact H.
  - right. right. exact H.
Qed.

(** X8. After [updateStatus] has received values, the count is the
    last value, the flag says whether it is positive, and the time of
    the last change is the time stored at the start or one of the
    clocks: the clock of the last iteration if its value differs from
    the one before, and what it was before that iteration otherwise. *)
Theorem X8_state_after_updates :
  forall (received : list (Z * Z)) (s : Status) (n t : Z),
    PeopleNowPresent (updateStatus (received ++ [(n, t)]) s) = n
    /\ Open (updateStatus (received ++ [(n, t)]) s) = (n >? 0)
    /\ In (Lastchange (updateStatus (received ++ [(n, t)]) s))
          (Lastchange s :: map snd (received ++ [(n, t)]))
    /\ (PeopleNowPresent (updateStatus received s) <> n ->
        Lastchange (updateStatus (received ++ [(n, t)]) s) = t)
    /\ (PeopleNowPresent (updateStatus received s) = n ->
        Lastchange (updateStatus (received ++ [(n, t)]) s)
        = Lastchange (updateStatus received s)).
Proof.
  intros received s n t. split; [|split; [|split; [|split]]].
  - rewrite updateStatus_snoc. apply ingest_count.
  - rewrite updateStatus_snoc. apply ingest_open.
  - apply updateStatus_lastchange_in.
  - intros H. rewrite updateStatus_snoc, ingest_lastchange.
    apply Z.eqb_neq in H. now rewrite H.
  - intros H. rewrite updateStatus_snoc, ingest_lastchange.
    apply Z.eqb_eq in H. now rewrite H.
Qed.

Lemma X8_state_after_updates_witness :
  Lastchange (updateStatus ([(3, 100); (5, 200)] ++ [(0, 300)]) closed) = 300
  /\ Lastchange (updateStatus ([(3, 100); (5, 200)] ++ [(5, 300)]) closed) = 200.
Proof.
  destruct (X8_state_after_updates [(3, 100); (5, 200)] closed 0 300)
    as (_ & _ & _ & Hchanged & _).
  destruct (X8_state_after_updates [(3, 100); (5, 200)] closed 5 300)
    as (_ & _ & _ & _ & Hsame).
  split.
  - apply Hchanged. vm_compute. discriminate.
  - rewrite Hsame; reflexivity.
Defined.

Lemma updateStatusTrace_sorted (received : list (Z * Z)) :
  forall s : Status,
    StronglySorted Z.le (Lastchange s :: map snd received) ->
    StronglySorted Z.le (Lastchange s :: map Lastchange (updateStatusTrace received s)).
Proof.
  induction received as [|[n t] received IH]; intros s H; [exact H|].
  cbn [updateStatusTrace map fst snd] in *.
  inversion H as [|x l Htail Hall]; subst. inversion Htail as [|y l' Htail' Hall']; subst.
  inversion Hall as [|y l' Hst Hsl]; subst.
  assert (Hle : Lastchange s <= Lastchange (ingest s n t)).
  { rewrite ingest_lastchange. destruct (PeopleNowPresent s =? n); lia. }
  assert (Hnext : StronglySorted Z.le (Lastchange (ingest s n t) :: map snd received)).
  { rewrite ingest_lastchange. destruct (PeopleNowPresent s =? n).
    - constructor; assumption.
    - constructor; assumption. }
  specialize (IH (ingest s n t) Hnext).
  constructor; [exact IH|].
  inversion IH as [|x l Hs' Hall'']; subst.
  constructor; [exact Hle|].
  eapply Forall_impl; [|exact Hall'']. intros z Hz. lia.
Qed.

(** X9. If the clock never goes back, starting from the stored time of
    the last change, then the time of the last change never goes back
    over the iterations of [updateStatus]. *)
Theorem X9_lastchange_never_goes_back :
  forall (received : list (Z * Z)) (s : Status),
    StronglySorted Z.le (Lastchange s :: map snd received) ->
    StronglySorted Z.le (Lastchange s :: map Lastchange (updateStatusTrace received s))
    /\ Lastchange s <= Lastchange (updateStatus received s).
Proof.
  intros received s H. pose proof (updateStatusTrace_sorted received s H) as Hs.
  split; [exact Hs|].
  rewrite <- updateStatusTrace_last.
  inversion Hs as [|x l _ Hall]; subst.
  destruct (updateStatusTrace received s) as [|s1 tr] eqn:E; [simpl; lia|].
  rewrite Forall_forall in Hall. apply Hall.
  apply in_map. rewrite <- E. 
  assert (Hne : updateStatusTrace received s <> []) by (rewrite E; discriminate).
  rewrite E. apply (exists_last) in Hne as (front & lst & Hl). rewrite E in Hl.
  rewrite Hl, last_last. apply in_or_app. right. now left.
Qed.

Lemma X9_lastchange_never_goes_back_witness :
  7 <= Lastchange (updateStatus [(3, 100); (3, 150); (0, 150); (2, 300)] closed).
Proof.
  apply (X9_lastchange_never_goes_back [(3, 100); (3, 150); (0, 150); (2, 300)] closed).
  vm_compute. repeat constructor; discriminate.
Defined.

(** ** The goroutines, further *)

Lemma run_reaches_inv m0 values requests hackerRequests schedule c done :
  run schedule (initial m0 values requests hackerRequests) = Some (c, done) ->
  Inv m0 values done c.
Proof.
  intros Hrun.
  exact (run_inv m0 values schedule [] _ _ _
           (initial_inv m0 values requests hackerRequests) Hrun).
Qed.

(** X10. In every reachable configuration the mutex says what the
    goroutines do: it is write-locked exactly while [updateStatus] is
    between [Lock] and [Unlock], its reader count is the number of
    status requests between [RLock] and [RUnlock], and the two exclude
    each other; while a request holds the read lock the memory is the
    result of the completed iterations. *)
Theorem X10_mutual_exclusion :
  forall (m0 : Status) (values : list Z) (requests hackerRequests : nat)
         (schedule : list Choice) (c : Config) (done : list (Z * Z)),
    run schedule (initial m0 values requests hackerRequests) = Some (c, done) ->
    writerHeld (mutex c) = inCritical (update c)
    /\ readerCount (mutex c) = readersIn (handlers c)
    /\ (inCritical (update c) = true ->
        Forall (fun pc => holdsRead pc = false) (handlers c))
    /\ (forall i pc, nth_error (handlers c) i = Some pc -> holdsRead pc = true ->
                     inCritical (update c) = false
                     /\ memory c = updateStatus done m0).
Proof.
  intros m0 values requests hackerRequests schedule c done Hrun.
  destruct (run_reaches_inv _ _ _ _ _ _ _ Hrun) as [Hw Hr Hx Hu Hh Hv Hc Hk].
  split; [exact Hw|]. split; [exact Hr|]. split.
  - intros Hin. apply readersIn_zero. rewrite <- Hr. apply Hx. now rewrite Hw.
  - intros i pc Hi Hpc.
    assert (Hout : inCritical (update c) = false).
    { destruct (inCritical (update c)) eqn:E; [|reflexivity].
      assert (Hz : readersIn (handlers c) = 0%nat).
      { rewrite <- Hr. apply Hx. now rewrite Hw. }
      apply readersIn_zero in Hz. rewrite Forall_forall in Hz.
      rewrite (Hz pc (nth_error_In _ _ Hi)) in Hpc. discriminate. }
    split; [exact Hout|].
    destruct (update c); simpl in *; try discriminate; exact Hu.
Qed.

(** X11. The goroutines never block each other for good: in every
    reachable configuration some goroutine can take a step, unless all
    values are ingested and all requests answered. *)
Theorem X11_no_deadlock :
  forall (m0 : Status) (values : list Z) (requests hackerRequests : nat)
         (schedule : list Choice) (c : Config) (done : list (Z * Z)),
    run schedule (initial m0 values requests hackerRequests) = Some (c, done) ->
    finished c \/ exists ch c' e, step ch c = Some (c', e).
Proof.
  intros m0 values requests hackerRequests schedule c done Hrun.
  destruct (run_reaches_inv _ _ _ _ _ _ _ Hrun) as [Hw Hr Hx Hu Hh Hv Hc Hk].
  fold (canStep c).
  assert (Hupd : forall ch c' e, stepUpdate ch c = Some (c', e) -> canStep c).
  { intros ch c' e H. exists {| thread := UpdateStatus; sender := sender ch;
                                clock := clock ch |}, c', e.
    unfold step. cbn [thread]. unfold stepUpdate in *.
    cbn [sender clock] in *. exact H. }
  destruct (update c) eqn:Hpc.
  - (* waiting for a value *)
    destruct (senders c) as [|n rest] eqn:Hs.
    + destruct (handlers_done_or_not (handlers c)) as [Hhs | (i & pc & Hi & Hleft)].
      * destruct (hackers_done_or_not (hackers c)) as [Hks | (i & pc & Hi & Hleft)].
        -- left. repeat split; assumption.
        -- right. eapply hackers_can_step; eauto.
      * right. eapply handler_can_step; eauto.
    + right. eapply (Hupd (byUpdate 0 0)). unfold stepUpdate.
      rewrite Hpc, Hs. reflexivity.
  - (* waiting for the mutex *)
    right. simpl in Hw.
    destruct (readerCount (mutex c)) as [|k] eqn:Hrc.
    + eapply (Hupd (byUpdate 0 0)). unfold stepUpdate.
      rewrite Hpc, Hw, Hrc. reflexivity.
    + destruct (readersIn_positive (handlers c)) as (i & pc & Hi & Hin); [lia|].
      eapply handler_in_read_can_step; eauto.
  - right. eapply (Hupd (byUpdate 0 0)). unfold stepUpdate. rewrite Hpc. reflexivity.
  - right. eapply (Hupd (byUpdate 0 0)). unfold stepUpdate. rewrite Hpc. reflexivity.
  - right. eapply (Hupd (byUpdate 0 0)). unfold stepUpdate. rewrite Hpc. reflexivity.
  - right.
    destruct (negb (previousPeoplePresent =? PeopleNowPresent (memory c))) eqn:E;
      eapply (Hupd (byUpdate 0 0)); unfold stepUpdate; rewrite Hpc, E; reflexivity.
  - right. eapply (Hupd (byUpdate 0 0)). unfold stepUpdate. rewrite Hpc. reflexivity.
  - right. eapply (Hupd (byUpdate 0 0)). unfold stepUpdate. rewrite Hpc. reflexivity.
Qed.

Lemma run_length (schedule : list Choice) :
  forall c c' e,
    run schedule c = Some (c', e) ->
    (List.length schedule + stepsLeft c' <= stepsLeft c)%nat.
Proof.
  induction schedule as [|ch schedule IH]; intros c c' e Hrun; simpl in Hrun.
  - injection Hrun as <- <-. simpl. lia.
  - destruct (step ch c) as [[c1 e1]|] eqn:Hstep; [|discriminate].
    destruct (run schedule c1) as [[c2 e2]|] eqn:Hrest; [|discriminate].
    injection Hrun as <- <-. apply step_decreases in Hstep.
    specialize (IH _ _ _ Hrest). simpl. lia.
Qed.

(** X12. Every run is finite: with [v] values, [r] status requests
    and [h] hackers requests no schedule runs for more than
    [8 v + 5 r + 3 h] steps, and a configuration with no step left to
    take is one where everything is done. *)
Theorem X12_runs_are_bounded :
  forall (m0 : Status) (values : list Z) (requests hackerRequests : nat)
         (schedule : list Choice) (c : Config) (done : list (Z * Z)),
    run schedule (initial m0 values requests hackerRequests) = Some (c, done) ->
    (List.length schedule + stepsLeft c
     <= 8 * List.length values + 5 * requests + 3 * hackerRequests)%nat
    /\ (stepsLeft c = 0%nat -> finished c).
Proof.
  intros m0 values requests hackerRequests schedule c done Hrun.
  split.
  - pose proof (run_length _ _ _ _ Hrun) as H.
    unfold stepsLeft at 2 in H. simpl in H. rewrite !total_repeat in H. simpl in H. lia.
  - intros Hz. unfold stepsLeft in Hz. unfold finished.
    assert (Hu : updateSteps (update c) = 0%nat) by lia.
    assert (Hs : List.length (senders c) = 0%nat) by lia.
    assert (Hh : total handlerSteps (handlers c) = 0%nat) by lia.
    assert (Hk : total hackersSteps (hackers c) = 0%nat) by lia.
    split; [destruct (update c); simpl in Hu; try discriminate; reflexivity|].
    split; [destruct (senders c); [reflexivity | discriminate]|].
    split.
    + apply total_zero in Hh. eapply Forall_impl; [|exact Hh].
      intros pc Hpc. destruct pc; simpl in Hpc; try discriminate; eauto.
    + apply total_zero in Hk. eapply Forall_impl; [|exact Hk].
      intros pc Hpc. destruct pc; simpl in Hpc; try discriminate; eauto.
Qed.

Lemma X10_mutual_exclusion_witness :
  inCritical (update (configAfter examplePrefix exampleStart)) = false
  /\ memory (configAfter examplePrefix exampleStart) = closed.
Proof.
  apply (proj2 (proj2 (proj2 (X10_mutual_exclusion closed [3; 0] 2 1 examplePrefix
                                (configAfter examplePrefix exampleStart)
                                (doneAfter examplePrefix exampleStart)
                                ltac:(vm_compute; reflexivity))))
           0%nat (HLoadChange false 0)); reflexivity.
Defined.

Lemma X11_no_deadlock_witness :
  finished (configAfter examplePrefix exampleStart)
  \/ exists ch c' e, step ch (configAfter examplePrefix exampleStart) = Some (c', e).
Proof.
  apply (X11_no_deadlock closed [3; 0] 2 1 examplePrefix
           (configAfter examplePrefix exampleStart)
           (doneAfter examplePrefix exampleStart)).
  vm_compute. reflexivity.
Defined.

Lemma X12_runs_are_bounded_witness :
  (List.length exampleSchedule + stepsLeft (configAfter exampleSchedule exampleStart)
   <= 8 * List.length [3; 0] + 5 * 2 + 3 * 1)%nat.
Proof.
  apply (X12_runs_are_bounded closed [3; 0] 2 1 exampleSchedule
           (configAfter exampleSchedule exampleStart)
           (doneAfter exampleSchedule exampleStart)).
  vm_compute. reflexivity.
Defined.

(** ** Numbers, the descriptor and the first version *)

Lemma horner_acc (d : Decimal.uint) (acc : positive) :
  horner d (Zpos acc) = Zpos (Pos.of_uint_acc d acc).
Proof.
  revert acc. induction d; intros acc; cbn [horner Pos.of_uint_acc]; try reflexivity;
    rewrite <- IHd; f_equal; rewrite ?Pos2Z.inj_add, ?Pos2Z.inj_mul; lia.
Qed.

Lemma horner_of_uint (d : Decimal.uint) :
  horner d 0 = Z.of_N (Pos.of_uint d).
Proof.
  induction d; cbn [horner Pos.of_uint Z.of_N]; try reflexivity;
    first [exact IHd | apply (horner_acc d)].
Qed.

Lemma horner_ge (d : Decimal.uint) (n : Z) : 0 <= n -> n <= horner d n.
Proof.
  revert n. induction d; intros n Hn; simpl; try lia;
    match goal with
    | |- _ <= horner _ ?m => specialize (IHd m); lia
    end.
Qed.

Lemma parseDigits_step (c : ascii) (s : string) (n k : Z) :
  isDigit c = true -> Z.of_N (byteOf c) - 48 = k ->
  0 <= n -> 0 <= k -> n * 10 + k <= maxUint64 ->
  parseDigits (String c s) n = parseDigits s (n * 10 + k).
Proof.
  intros Hc Hk Hn Hk0 Hmax. cbn [parseDigits]. rewrite Hc, Hk.
  change (maxUint64 / 10 + 1) with 1844674407370955162.
  unfold maxUint64 in *.
  destruct (Z.geb_spec n 1844674407370955162); [lia|].
  cbv zeta. destruct (Z.gtb_spec (n * 10 + k) 18446744073709551615); [lia|].
  reflexivity.
Qed.

Lemma parseDigits_numeral (d : Decimal.uint) (n : Z) :
  0 <= n -> horner d n <= maxUint64 ->
  parseDigits (NilEmpty.string_of_uint d) n = (horner d n, None).
Proof.
  revert n. induction d; intros n Hn Hmax;
    cbn [horner NilEmpty.string_of_uint] in Hmax |- *; try reflexivity;
    match type of Hmax with
    | horner _ (_ + ?k) <= _ =>
      pose proof (horner_ge d (n * 10 + k) ltac:(lia)) as Hge;
      rewrite (parseDigits_step _ _ n k) by (reflexivity || lia);
      apply IHd; [lia | exact Hmax]
    end.
Qed.

Lemma to_uint_not_nil (p : positive) : Pos.to_uint p <> Decimal.Nil.
Proof.
  intros H. pose proof (DecimalPos.Unsigned.of_to p) as Hp.
  rewrite H in Hp. discriminate.
Qed.

Lemma Itoa_pos (p : positive) :
  Itoa (Zpos p) = NilEmpty.string_of_uint (Pos.to_uint p).
Proof.
  unfold Itoa. cbn [Z.to_int NilZero.string_of_int NilZero.string_of_uint].
  pose proof (to_uint_not_nil p). destruct (Pos.to_uint p); first [reflexivity | congruence].
Qed.

Lemma Itoa_neg (p : positive) :
  Itoa (Zneg p) = String "-" (NilEmpty.string_of_uint (Pos.to_uint p)).
Proof.
  unfold Itoa. cbn [Z.to_int NilZero.string_of_int NilZero.string_of_uint].
  pose proof (to_uint_not_nil p). destruct (Pos.to_uint p); first [reflexivity | congruence].
Qed.

Lemma numeral_first_digit (d : Decimal.uint) :
  d <> Decimal.Nil ->
  exists c s, NilEmpty.string_of_uint d = String c s /\ isDigit c = true.
Proof.
  destruct d; [congruence| ..]; intros _; cbn [NilEmpty.string_of_uint];
    do 2 eexists; split; reflexivity.
Qed.

Lemma ParseUint_numeral (p : positive) :
  Zpos p <= maxUint64 ->
  ParseUint (NilEmpty.string_of_uint (Pos.to_uint p)) = (Zpos p, None).
Proof.
  intros Hmax.
  assert (Hv : horner (Pos.to_uint p) 0 = Zpos p).
  { now rewrite horner_of_uint, DecimalPos.Unsigned.of_to. }
  destruct (numeral_first_digit _ (to_uint_not_nil p)) as (c & s & Hs & Hc).
  unfold ParseUint. rewrite Hs, <- Hs.
  rewrite parseDigits_numeral; [now rewrite Hv | lia | now rewrite Hv].
Qed.

Lemma Atoi_Itoa (n : Z) :
  - 2 ^ 63 <= n <= 2 ^ 63 - 1 -> Atoi (Itoa n) = (n, None).
Proof.
  intros Hn. unfold Atoi. destruct n as [|p|p].
  - reflexivity.
  - rewrite Itoa_pos.
    destruct (numeral_first_digit _ (to_uint_not_nil p)) as (c & s & Hs & Hc).
    unfold ParseInt. rewrite Hs.
    assert (Hplus : Ascii.eqb c "+" = false).
    { destruct (Ascii.eqb_spec c "+"); [subst; discriminate | reflexivity]. }
    assert (Hminus : Ascii.eqb c "-" = false).
    { destruct (Ascii.eqb_spec c "-"); [subst; discriminate | reflexivity]. }
    rewrite Hplus, Hminus, <- Hs, ParseUint_numeral by (unfold maxUint64; lia).
    cbn [negb andb].
    destruct (Z.geb_spec (Z.pos p) (2 ^ 63)); [lia | reflexivity].
  - rewrite Itoa_neg. unfold ParseInt.
    change (Ascii.eqb "-" "+") with false. change (Ascii.eqb "-" "-") with true.
    cbv iota. rewrite ParseUint_numeral by (unfold maxUint64; lia).
    cbn [negb andb].
    destruct (Z.gtb_spec (Z.pos p) (2 ^ 63)); [lia | reflexivity].
Qed.

Lemma parseDigits_junk (ds : string) (c : ascii) (rest : string) :
  forall n : Z,
    0 <= n -> (n + 1) * 10 ^ Z.of_nat (String.length ds) <= 10 ^ 18 ->
    allDigits ds = true -> isDigit c = false ->
    parseDigits (ds ++ String c rest) n = (0, Some ErrSyntax).
Proof.
  induction ds as [|d ds IH]; intros n Hn Hbound Hds Hc.
  - cbn [append parseDigits]. now rewrite Hc.
  - cbn [allDigits] in Hds. apply andb_true_iff in Hds as [Hd Hds].
    cbn [String.length] in Hbound. rewrite Nat2Z.inj_succ, Z.pow_succ_r in Hbound by lia.
    assert (Hpow : 1 <= 10 ^ Z.of_nat (String.length ds)).
    { pose proof (Z.pow_pos_nonneg 10 (Z.of_nat (String.length ds))). lia. }
    assert (Hv : 0 <= Z.of_N (byteOf d) - 48 <= 9).
    { unfold isDigit, between in Hd. apply andb_true_iff in Hd as [H1 H2].
      apply N.leb_le in H1, H2. lia. }
    cbn [append].
    rewrite (parseDigits_step d _ n (Z.of_N (byteOf d) - 48)); try lia; auto.
    + apply IH; [lia | nia | exact Hds | exact Hc].
    + unfold maxUint64. nia.
Qed.

Lemma short_bound (ds : string) :
  (String.length ds <= 18)%nat -> (0 + 1) * 10 ^ Z.of_nat (String.length ds) <= 10 ^ 18.
Proof.
  intros H. rewrite Z.mul_1_l. apply Z.pow_le_mono_r; lia.
Qed.

Lemma Atoi_junk (ds : string) (c : ascii) (rest : string) :
  allDigits ds = true -> (String.length ds <= 18)%nat -> isDigit c = false ->
  (ds = "" -> Ascii.eqb c "+" = false /\ Ascii.eqb c "-" = false) ->
  Atoi (ds ++ String c rest) = (0, Some ErrSyntax)
  /\ Atoi (String "+" (ds ++ String c rest)) = (0, Some ErrSyntax)
  /\ Atoi (String "-" (ds ++ String c rest)) = (0, Some ErrSyntax).
Proof.
  intros Hds Hlen Hc Hsign.
  assert (Hp : ParseUint (ds ++ String c rest) = (0, Some ErrSyntax)).
  { unfold ParseUint.
    rewrite (parseDigits_junk ds c rest 0) by (auto using short_bound; lia).
    destruct ds; reflexivity. }
  unfold Atoi, ParseInt. repeat split.
  - destruct ds as [|d ds].
    + cbn [append]. destruct (Hsign eq_refl) as [-> ->]. cbn [append] in Hp.
      now rewrite Hp.
    + cbn [append]. cbn [allDigits] in Hds. apply andb_true_iff in Hds as [Hd _].
      assert (Hplus : Ascii.eqb d "+" = false).
      { destruct (Ascii.eqb_spec d "+"); [subst; discriminate | reflexivity]. }
      assert (Hminus : Ascii.eqb d "-" = false).
      { destruct (Ascii.eqb_spec d "-"); [subst; discriminate | reflexivity]. }
      rewrite Hplus, Hminus. cbn [append] in Hp. now rewrite Hp.
  - change (Ascii.eqb "+" "+") with true. cbv iota. now rewrite Hp.
  - change (Ascii.eqb "-" "+") with false. change (Ascii.eqb "-" "-") with true.
    cbv iota. now rewrite Hp.
Qed.

(** X13. What the hackers route answers is read back by the first
    version of the server: for a count that fits 64 bits, [Atoi] of
    the text gives the count without error, and [peopleInSpace]
    returns it. *)
Theorem X13_hackers_text_reads_back :
  forall (d : Descriptor.SpaceDescriptor) (err : option error) (s : Legacy.Server),
    - 2 ^ 63 <= loadPeople d <= 2 ^ 63 - 1 ->
    Atoi (hackersRoute d) = (loadPeople d, None)
    /\ Legacy.peopleInSpace (Some (hackersRoute d), err) s
       = Legacy.Returns (loadPeople d) (Legacy.check err s).
Proof.
  intros d err s Hn. unfold hackersRoute, Legacy.peopleInSpace.
  rewrite (Atoi_Itoa _ Hn). split; reflexivity.
Qed.

(** X14. [peopleInSpace] drops the error of [Atoi]: a body that, after
    an optional sign, has a byte that is no digit behind at most 18
    digits (a line end after the number, a page of text), and the empty
    body, are read as 0 people. *)
Theorem X14_unreadable_body_counts_as_nobody :
  forall (ds : string) (c : ascii) (rest : string) (err : option error)
         (s : Legacy.Server),
    allDigits ds = true -> (String.length ds <= 18)%nat -> isDigit c = false ->
    (ds = "" -> Ascii.eqb c "+" = false /\ Ascii.eqb c "-" = false) ->
    Legacy.peopleInSpace (Some (ds ++ String c rest), err) s
    = Legacy.Returns 0 (Legacy.check err s)
    /\ Legacy.peopleInSpace (Some (String "-" (ds ++ String c rest)), err) s
       = Legacy.Returns 0 (Legacy.check err s)
    /\ Legacy.peopleInSpace (Some "", err) s = Legacy.Returns 0 (Legacy.check err s).
Proof.
  intros ds c rest err s Hds Hlen Hc Hsign.
  destruct (Atoi_junk ds c rest Hds Hlen Hc Hsign) as (H1 & _ & H3).
  unfold Legacy.peopleInSpace. rewrite H1, H3. repeat split.
Qed.

Lemma sameFrame_refl (d : Descriptor.SpaceDescriptor) : sameFrame d d.
Proof. unfold sameFrame. repeat split. Qed.

Lemma sameFrame_trans (d1 d2 d3 : Descriptor.SpaceDescriptor) :
  sameFrame d1 d2 -> sameFrame d2 d3 -> sameFrame d1 d3.
Proof.
  unfold sameFrame. intros H12 H23.
  repeat match goal with H : _ /\ _ |- _ => destruct H end.
  repeat split; congruence.
Qed.

Lemma storePeople_frame (d : Descriptor.SpaceDescriptor) (n : Z) :
  sameFrame d (storePeople d n).
Proof.
  unfold sameFrame, storePeople. cbn.
  destruct (Descriptor.PeopleNowPresentList (Descriptor.Sensors d)); repeat split.
Qed.

Lemma storePeople_load (d : Descriptor.SpaceDescriptor) (n : Z) :
  hasSensor d -> loadPeople (storePeople d n) = n.
Proof.
  unfold hasSensor, loadPeople, storePeople. cbn.
  destruct (Descriptor.PeopleNowPresentList (Descriptor.Sensors d)); [congruence|].
  reflexivity.
Qed.

(** X16. [init] goes on with whatever descriptor the decoding left,
    its errors being logged only: it returns this descriptor when it
    has a sensor entry, and panics with an index out of range when it
    has none. The published events are untouched. *)
Theorem X16_init_needs_a_sensor_entry :
  forall (f : Descriptor.FileAnswers) (w : World),
    match init f w with
    | Returns d w' =>
      d = fst (Descriptor.unmarshalAnswer f) /\ hasSensor d
    | Crashes p w' =>
      ~ hasSensor (fst (Descriptor.unmarshalAnswer f)) /\ p = IndexOutOfRange 0 0
    end
    /\ Events (worldOf (init f w)) = Events w
    /\ Log (worldOf (init f w))
       = (Log w
          ++ match snd (Descriptor.readFileAnswer f) with Some e => [e] | None => [] end
          ++ match snd (Descriptor.unmarshalAnswer f) with Some e => [e] | None => [] end)%list.
Proof.
  intros [[file rerr] [d uerr]] w. unfold init, getJSONFile, readFile.
  cbn [Descriptor.readFileAnswer Descriptor.unmarshalAnswer fst snd].
  destruct (Descriptor.PeopleNowPresentList (Descriptor.Sensors d)) as [|p rest] eqn:Hs;
    unfold hasSensor; cbn [worldOf];
    (split; [split; congruence|]);
    destruct rerr, uerr; cbn; rewrite <- ?app_assoc, ?app_nil_r; split; reflexivity.
Qed.

Lemma updateDescriptor_refines (d : Descriptor.SpaceDescriptor) (n now : Z) :
  hasSensor d ->
  statusRoute (updateDescriptor d n now) = ingest (statusRoute d) n now
  /\ sameFrame d (updateDescriptor d n now)
  /\ hasSensor (updateDescriptor d n now).
Proof.
  unfold hasSensor, updateDescriptor, statusRoute, ingest, sameFrame.
  unfold loadPeople, loadOpen, loadChange, storePeople, storeOpen, storeChange.
  destruct d as [api space logo url loc [o l] con [[|p rest]] irc prj cache]; cbn;
    [congruence|].
  intros _. destruct (negb (Descriptor.Value p =? n)); cbn; repeat split; discriminate.
Qed.

(** X17. On a descriptor with a sensor entry, the loop of
    [updateStatus] working through the three pointers does to the
    descriptor what it does to the three variables: after any values
    received the status route answers the updated triple, the
    descriptor route serves the same flag, time and count, and all
    other fields and sensor entries of the descriptor are as loaded. *)
Theorem X17_descriptor_follows_the_status :
  forall (received : list (Z * Z)) (d : Descriptor.SpaceDescriptor),
    hasSensor d ->
    statusRoute (updateDescriptors received d) = updateStatus received (statusRoute d)
    /\ sameFrame d (updateDescriptors received d)
    /\ hasSensor (updateDescriptors received d)
    /\ Descriptor.State (spaceAPIRouteHandler (updateDescriptors received d))
       = {| Descriptor.Open := Open (updateStatus received (statusRoute d));
            Descriptor.Lastchange := Lastchange (updateStatus received (statusRoute d)) |}
    /\ hd_error (Descriptor.PeopleNowPresentList
                   (Descriptor.Sensors (spaceAPIRouteHandler (updateDescriptors received d))))
       = Some {| Descriptor.Value :=
                   PeopleNowPresent (updateStatus received (statusRoute d)) |}.
Proof.
  intros received. induction received as [|[n t] received IH]; intros d Hd.
  - cbn. repeat split; auto using sameFrame_refl.
    + unfold loadOpen, loadChange. now destruct (Descriptor.State d).
    + unfold hasSensor in Hd. unfold loadPeople.
      destruct (Descriptor.PeopleNowPresentList (Descriptor.Sensors d)) as [|[v] rest];
        [congruence | reflexivity].
  - destruct (updateDescriptor_refines d n t Hd) as (Hs & Hf & Hh).
    change (updateDescriptors ((n, t) :: received) d)
      with (updateDescriptors received (updateDescriptor d n t)).
    change (updateStatus ((n, t) :: received) (statusRoute d))
      with (updateStatus received (ingest (statusRoute d) n t)).
    rewrite <- Hs. destruct (IH _ Hh) as (H1 & H2 & H3 & H4 & H5).
    split; [exact H1|]. split; [eapply sameFrame_trans; eauto|].
    split; [exact H3|]. split; [exact H4 | exact H5].
Qed.

Lemma X13_hackers_text_reads_back_witness :
  Atoi (hackersRoute (updateDescriptor exampleDescriptor (-3) 100)) = (-3, None).
Proof.
  apply (X13_hackers_text_reads_back (updateDescriptor exampleDescriptor (-3) 100)
           None legacyStart).
  vm_compute. split; discriminate.
Defined.

Lemma X14_unreadable_body_counts_as_nobody_witness :
  Legacy.peopleInSpace (Some ("3" ++ String newline ""), None) legacyStart
  = Legacy.Returns 0 legacyStart.
Proof.
  apply (X14_unreadable_body_counts_as_nobody "3" newline "" None legacyStart).
  - reflexivity.
  - simpl. lia.
  - reflexivity.
  - discriminate.
Defined.

Lemma X17_descriptor_follows_the_status_witness :
  statusRoute (updateDescriptors [(3, 100); (0, 200)] exampleDescriptor)
  = updateStatus [(3, 100); (0, 200)] (statusRoute exampleDescriptor).
Proof.
  apply (X17_descriptor_follows_the_status [(3, 100); (0, 200)] exampleDescriptor).
  discriminate.
Defined.

(** ** The requests of the first version *)

Import LegacyRequests.

Lemma sameFrame_hasSensor (d0 d : Descriptor.SpaceDescriptor) :
  sameFrame d0 d -> (hasSensor d0 <-> hasSensor d).
Proof.
  unfold sameFrame, hasSensor. intros (_ & _ & _ & _ & _ & _ & _ & Hlen & _).
  destruct (Descriptor.PeopleNowPresentList (Descriptor.Sensors d0)),
           (Descriptor.PeopleNowPresentList (Descriptor.Sensors d));
    simpl in Hlen; split; intros H; first [exact H | discriminate].
Qed.

Lemma storeOpen_frame (d : Descriptor.SpaceDescriptor) (b : bool) :
  sameFrame d (storeOpen d b).
Proof. unfold sameFrame, storeOpen. cbn. repeat split. Qed.

(** What holds of a request keeps holding when the descriptor changes,
    as long as the first sensor entry and the flag, once they come from
    numbers read, keep doing so. *)
Lemma requestAt_memory d0 incoming d d' r :
  (readBySome incoming (loadPeople d) -> readBySome incoming (loadPeople d')) ->
  (openFromSome incoming (Descriptor.State d) ->
   openFromSome incoming (Descriptor.State d')) ->
  requestAt d0 incoming d r -> requestAt d0 incoming d' r.
Proof.
  intros Hv Ho. unfold requestAt. destruct (pc r) as [| | | | | |[st|dd]|]; try tauto.
Qed.

Lemma requests_memory d0 incoming d d' rs :
  (readBySome incoming (loadPeople d) -> readBySome incoming (loadPeople d')) ->
  (openFromSome incoming (Descriptor.State d) ->
   openFromSome incoming (Descriptor.State d')) ->
  Forall (requestAt d0 incoming d) rs -> Forall (requestAt d0 incoming d') rs.
Proof.
  intros Hv Ho H. eapply Forall_impl; [|exact H].
  intros r. now apply requestAt_memory.
Qed.

Lemma incoming_setAt (rs : list Request) (i : nat) (r : Request) (pc' : RequestPC) :
  nth_error rs i = Some r ->
  map (fun r => (route r, answer r))
      (setAt i {| route := route r; answer := answer r; pc := pc' |} rs)
  = map (fun r => (route r, answer r)) rs.
Proof.
  revert i. induction rs as [|y rs IH]; intros [|i] H; try discriminate.
  - injection H as ->. reflexivity.
  - simpl in H |- *. now rewrite (IH i H).
Qed.

Lemma incoming_In (rs : list Request) (i : nat) (r : Request) :
  nth_error rs i = Some r ->
  In (route r, answer r) (map (fun r => (route r, answer r)) rs).
Proof. intros H. apply in_map_iff. exists r. split; [reflexivity|]. eapply nth_error_In; eauto. Qed.

Lemma check_descriptor (err : option error) (s : Legacy.Server) :
  Legacy.spaceDescriptor (Legacy.check err s) = Legacy.spaceDescriptor s.
Proof. destruct err; reflexivity. Qed.

Lemma legacy_step_inv d0 incoming i c c' :
  LegacyRequests.Inv d0 incoming c -> LegacyRequests.step i c = Some c' ->
  LegacyRequests.Inv d0 incoming c'.
Proof.
  intros [Hin Hf Hl Hr] Hs. unfold LegacyRequests.step in Hs.
  destruct (nth_error (requests c) i) as [r|] eqn:Hi; [|discriminate].
  assert (Hme : requestAt d0 incoming (Legacy.spaceDescriptor (server c)) r).
  { rewrite Forall_forall in Hr. apply Hr. eapply nth_error_In; eauto. }
  assert (Hmine : In (route r, answer r) incoming).
  { rewrite <- Hin. eapply incoming_In; eauto. }
  pose proof (sameFrame_hasSensor _ _ Hf) as Hsens.
  unfold requestAt in Hme.
  destruct (pc r) as [|v| |x| |copy|served|p] eqn:Hpc.
  - (* the call *)
    unfold Legacy.peopleInSpace in Hs.
    destruct (answer r) as [[body|] err] eqn:Ha.
    + destruct (Atoi body) as [data e] eqn:Hparse. injection Hs as <-.
      constructor; cbn [server requests move].
      * now rewrite incoming_setAt.
      * now rewrite check_descriptor.
      * now rewrite check_descriptor.
      * rewrite check_descriptor. apply Forall_setAt; [exact Hr|].
        unfold requestAt. cbn [pc answer]. exists body. rewrite Ha, Hparse.
        split; reflexivity.
    + injection Hs as <-.
      constructor; cbn [server requests move].
      * now rewrite incoming_setAt.
      * now rewrite check_descriptor.
      * now rewrite check_descriptor.
      * rewrite check_descriptor. apply Forall_setAt; [exact Hr|].
        unfold requestAt. cbn [pc answer]. left. rewrite Ha. split; reflexivity.
  - (* the store of the number *)
    destruct Hme as (body & Hbody & Hv).
    assert (Hknown : readBySome incoming v).
    { destruct (answer r) as [resp err] eqn:Ha. cbn [fst] in Hbody. subst resp.
      exists (route r), body, err. split; [exact Hmine | exact Hv]. }
    destruct (Descriptor.PeopleNowPresentList
                (Descriptor.Sensors (Legacy.spaceDescriptor (server c))))
      as [|p rest] eqn:Hlist; injection Hs as <-;
      constructor; cbn [server requests move withDescriptor Legacy.spaceDescriptor].
    + now rewrite incoming_setAt.
    + exact Hf.
    + exact Hl.
    + apply Forall_setAt; [exact Hr|].
      unfold requestAt. cbn [pc answer]. right. rewrite Hbody.
      repeat split; [discriminate|].
      intros H. apply Hsens in H. unfold hasSensor in H. congruence.
    + now rewrite incoming_setAt.
    + eapply sameFrame_trans; [exact Hf | apply storePeople_frame].
    + exact Hl.
    + assert (Hhas : hasSensor (Legacy.spaceDescriptor (server c)))
        by (unfold hasSensor; congruence).
      assert (Hload : loadPeople (storePeople (Legacy.spaceDescriptor (server c)) v) = v)
        by (now apply storePeople_load).
      apply Forall_setAt.
      * apply (requests_memory _ _ (Legacy.spaceDescriptor (server c))); auto.
        intros _. now rewrite Hload.
      * unfold requestAt. cbn [pc answer]. rewrite Hbody, Hload.
        repeat split; [discriminate | now apply Hsens | exact Hknown].
  - (* the load of the number *)
    destruct Hme as (Hresp & Hhas & Hknown).
    destruct (Descriptor.PeopleNowPresentList
                (Descriptor.Sensors (Legacy.spaceDescriptor (server c))))
      as [|p rest] eqn:Hlist; injection Hs as <-;
      constructor; cbn [server requests move]; try assumption;
      try (now rewrite incoming_setAt).
    + apply Hsens in Hhas. unfold hasSensor in Hhas. congruence.
    + apply Forall_setAt; [exact Hr|].
      unfold requestAt. cbn [pc answer]. repeat split; auto.
      unfold loadPeople in Hknown. now rewrite Hlist in Hknown.
  - (* the store of the flag *)
    destruct Hme as (Hresp & Hhas & Hknown & Hx). injection Hs as <-.
    constructor; cbn [server requests move withDescriptor Legacy.spaceDescriptor].
    + now rewrite incoming_setAt.
    + eapply sameFrame_trans; [exact Hf | apply storeOpen_frame].
    + exact Hl.
    + assert (Hopen : openFromSome incoming
                        (Descriptor.State
                           (storeOpen (Legacy.spaceDescriptor (server c)) (x >? 0))))
        by (exists x; split; [exact Hx | reflexivity]).
      apply Forall_setAt.
      * apply (requests_memory _ _ (Legacy.spaceDescriptor (server c))); auto.
      * unfold requestAt. cbn [pc answer]. repeat split; auto.
  - (* the copy *)
    destruct Hme as (Hresp & Hhas & Hknown & Hopen).
    destruct (route r) eqn:Hroute; injection Hs as <-;
      constructor; cbn [server requests move]; try assumption;
      try (now rewrite incoming_setAt);
      (apply Forall_setAt; [exact Hr|]);
      unfold requestAt; cbn [pc answer route].
    + split; [exact Hroute|]. split; [exact Hresp|]. split; [exact Hhas|].
      split; [exact Hl | exact Hopen].
    + split; [exact Hroute|]. split; [exact Hresp|]. split; [exact Hhas|].
      split; [exact Hknown|]. split; [exact Hf|]. split; [exact Hl | exact Hopen].
  - (* the encoding *)
    destruct Hme as (Hroute & Hresp & Hhas & Hknown & Hfc & Hlc & Hoc).
    injection Hs as <-.
    constructor; cbn [server requests move]; try assumption;
      try (now rewrite incoming_setAt).
    apply Forall_setAt; [exact Hr|].
    unfold requestAt. cbn [pc answer route].
    split; [exact Hroute|]. split; [exact Hresp|]. split; [exact Hhas|].
    split; [|split; [exact Hlc|split; [exact Hoc | exact Hknown]]].
    unfold sameFrame in *. cbn.
    repeat match goal with H : _ /\ _ |- _ => destruct H end.
    repeat split; congruence.
  - discriminate.
  - discriminate.
Qed.

Lemma legacy_run_inv d0 incoming (schedule : list nat) :
  forall c c',
    LegacyRequests.Inv d0 incoming c -> LegacyRequests.run schedule c = Some c' ->
    LegacyRequests.Inv d0 incoming c'.
Proof.
  induction schedule as [|i schedule IH]; intros c c' HI Hrun; cbn [LegacyRequests.run] in Hrun.
  - now injection Hrun as <-.
  - destruct (LegacyRequests.step i c) as [c1|] eqn:Hs; [|discriminate].
    eapply IH; [|exact Hrun]. eapply legacy_step_inv; eauto.
Qed.

Lemma legacy_start_inv d0 incoming :
  LegacyRequests.Inv d0 incoming (LegacyRequests.start d0 incoming).
Proof.
  constructor; cbn.
  - rewrite map_map. cbn. induction incoming as [|[rt a] l IH]; cbn; congruence.
  - apply sameFrame_refl.
  - reflexivity.
  - apply Forall_forall. intros r Hr. apply in_map_iff in Hr as (q & <- & _).
    exact I.
Qed.

Lemma legacy_run_app (s1 s2 : list nat) :
  forall c,
    LegacyRequests.run (s1 ++ s2) c =
    match LegacyRequests.run s1 c with
    | Some c1 => LegacyRequests.run s2 c1
    | None => None
    end.
Proof.
  induction s1 as [|i s1 IH]; intros c; cbn [app LegacyRequests.run]; [reflexivity|].
  destruct (LegacyRequests.step i c); [apply IH | reflexivity].
Qed.

(** A request that has not ended can take its next step: nothing makes
    it wait. *)
Lemma legacy_can_step (c : LegacyRequests.Config) (i : nat) (r : Request) :
  nth_error (requests c) i = Some r -> ended (pc r) = false ->
  exists c', LegacyRequests.step i c = Some c'
             /\ (total requestSteps (requests c') < total requestSteps (requests c))%nat.
Proof.
  intros Hi Hend. unfold LegacyRequests.step. rewrite Hi.
  pose proof (total_setAt requestSteps (requests c) i r) as Ht.
  assert (Hgo : forall s pc',
             (requestSteps {| route := route r; answer := answer r; pc := pc' |}
              < requestSteps r)%nat ->
             (total requestSteps (requests (move c s i r pc'))
              < total requestSteps (requests c))%nat).
  { intros s pc' Hlt. cbn [requests move].
    specialize (Ht {| route := route r; answer := answer r; pc := pc' |} Hi). lia. }
  unfold requestSteps in Hgo at 2. cbn [pc] in Hgo.
  destruct (pc r) eqn:Hpc; try discriminate.
  - destruct (Legacy.peopleInSpace (answer r) (server c));
      eexists; (split; [reflexivity|]); apply Hgo; cbn; lia.
  - destruct (Descriptor.PeopleNowPresentList _);
      eexists; (split; [reflexivity|]); apply Hgo; cbn; lia.
  - destruct (Descriptor.PeopleNowPresentList _);
      eexists; (split; [reflexivity|]); apply Hgo; cbn; lia.
  - eexists; (split; [reflexivity|]); apply Hgo; cbn; lia.
  - destruct (route r);
      eexists; (split; [reflexivity|]); apply Hgo; cbn; lia.
  - eexists; (split; [reflexivity|]); apply Hgo; cbn; lia.
Qed.

Lemma all_ended_or_not (rs : list Request) :
  Forall (fun r => ended (pc r) = true) rs
  \/ exists i r, nth_error rs i = Some r /\ ended (pc r) = false.
Proof.
  induction rs as [|r rs [IH | (i & r' & Hi & Hr)]].
  - left. constructor.
  - destruct (ended (pc r)) eqn:E.
    + left. constructor; assumption.
    + right. exists 0%nat, r. auto.
  - right. exists (S i), r'. auto.
Qed.

Lemma legacy_run_completes (n : nat) :
  forall c,
    (total requestSteps (requests c) <= n)%nat ->
    exists more c',
      LegacyRequests.run more c = Some c'
      /\ Forall (fun r => ended (pc r) = true) (requests c').
Proof.
  induction n as [|n IH]; intros c Hn;
    (destruct (all_ended_or_not (requests c)) as [Hall | (i & r & Hi & Hr)];
     [exists [], c; split; [reflexivity | exact Hall]|]);
    destruct (legacy_can_step c i r Hi Hr) as (c1 & Hs & Hlt).
  - lia.
  - destruct (IH c1 ltac:(lia)) as (more & c' & Hrun & Hall).
    exists (i :: more), c'. cbn [LegacyRequests.run]. rewrite Hs. auto.
Qed.

(** X15. The requests of the first version, run side by side in any
    interleaving of their statements. The descriptor keeps everything
    but the flag and the first sensor entry as loaded, the time of the
    last change included. A request ends with an answer only if its
    fetch gave a response and the descriptor has a sensor entry: the
    flag it serves is computed from a number that one of the requests
    read, the first sensor entry of a served descriptor is a number
    that one of the requests read, and the rest is as loaded. A request
    panics, with a nil dereference when its fetch gave no response and
    with an index out of range when there is no sensor entry. Every
    run goes on, under some schedule, until all requests have ended. *)
Theorem X15_legacy_requests_interleaved :
  forall (d0 : Descriptor.SpaceDescriptor)
         (incoming : list (Route * (option string * option error)))
         (schedule : list nat) (c : LegacyRequests.Config),
    LegacyRequests.run schedule (LegacyRequests.start d0 incoming) = Some c ->
    sameFrame d0 (Legacy.spaceDescriptor (server c))
    /\ Descriptor.Lastchange (Descriptor.State (Legacy.spaceDescriptor (server c)))
       = Descriptor.Lastchange (Descriptor.State d0)
    /\ map (fun r => (route r, answer r)) (requests c) = incoming
    /\ (forall (i : nat) (r : Request),
           nth_error (requests c) i = Some r ->
           match pc r with
           | QDone (ServedState st) =>
             route r = StatusRoute
             /\ fst (answer r) <> None /\ hasSensor d0
             /\ Descriptor.Lastchange st = Descriptor.Lastchange (Descriptor.State d0)
             /\ exists x, readBySome incoming x /\ Descriptor.Open st = (x >? 0)
           | QDone (ServedDescriptor d') =>
             route r = SpaceAPIRoute
             /\ fst (answer r) <> None /\ hasSensor d0
             /\ sameFrame d0 d'
             /\ Descriptor.Lastchange (Descriptor.State d')
                = Descriptor.Lastchange (Descriptor.State d0)
             /\ (exists x, readBySome incoming x
                           /\ Descriptor.Open (Descriptor.State d') = (x >? 0))
             /\ readBySome incoming (loadPeople d')
           | QPanicked p =>
             (fst (answer r) = None /\ p = NilPointerDereference)
             \/ (fst (answer r) <> None /\ ~ hasSensor d0 /\ p = IndexOutOfRange 0 0)
           | _ => True
           end)
    /\ (exists (more : list nat) (c' : LegacyRequests.Config),
           LegacyRequests.run (schedule ++ more) (LegacyRequests.start d0 incoming)
           = Some c'
           /\ Forall (fun r => ended (pc r) = true) (requests c')).
Proof.
  intros d0 incoming schedule c Hrun.
  destruct (legacy_run_inv d0 incoming schedule _ _ (legacy_start_inv d0 incoming) Hrun)
    as [Hin Hf Hl Hr].
  split; [exact Hf|]. split; [exact Hl|]. split; [exact Hin|]. split.
  - intros i r Hi. rewrite Forall_forall in Hr.
    specialize (Hr r (nth_error_In _ _ Hi)). unfold requestAt in Hr.
    destruct (pc r) as [| | | | | |[st|d']|]; try exact I; exact Hr.
  - destruct (legacy_run_completes (total requestSteps (requests c)) c (le_n _))
      as (more & c' & Hmore & Hall).
    exists more, c'. rewrite legacy_run_app, Hrun. auto.
Qed.

Lemma X15_legacy_requests_interleaved_witness :
  sameFrame exampleDescriptor
    (Legacy.spaceDescriptor
       (server (LegacyRequests.reached tornSchedule
                  (LegacyRequests.start exampleDescriptor threeRequests))))
  /\ exists more c',
       LegacyRequests.run (tornSchedule ++ more)
         (LegacyRequests.start exampleDescriptor threeRequests) = Some c'
       /\ Forall (fun r => ended (pc r) = true) (requests c').
Proof.
  destruct (X15_legacy_requests_interleaved exampleDescriptor threeRequests tornSchedule
              (LegacyRequests.reached tornSchedule
                 (LegacyRequests.start exampleDescriptor threeRequests)))
    as (Hframe & _ & _ & _ & Hmore).
  - vm_compute. reflexivity.
  - split; [exact Hframe | exact Hmore].
Defined.

(** The schedule [tornSchedule] makes the first request serve a
    descriptor that says closed with 4 people present. *)
Example legacy_answer_can_be_torn :
  exists c d',
    LegacyRequests.run tornSchedule (LegacyRequests.start exampleDescriptor threeRequests)
    = Some c
    /\ nth_error (requests c) 0
       = Some {| route := SpaceAPIRoute; answer := (Some "4", None);
                 pc := QDone (ServedDescriptor d') |}
    /\ Descriptor.Open (Descriptor.State d') = false
    /\ loadPeople d' = 4.
Proof.
  eexists. eexists. split; [vm_compute; reflexivity|].
  split; [reflexivity|]. split; reflexivity.
Qed.
